(** * FsParser and its pattern compiler: a shallow embedding

    The development follows [src/utils/regex.js] (the four sanitizers) and
    the class [FsParser] (constructor, [_configureRegex], [parse],
    [_parseDir], [doWeProcessFile], [doWeProcessDir], [freeformCheckFile],
    [_logMsg]).

    Conventions.
    - JavaScript strings are Rocq strings; the case folding of the [i] flag
      is the one of the code units below 128, and what is stated about the
      texts that a matcher does not match is stated for fragments made of
      such code units ([ascii_text]).
    - [path] is Node's POSIX module: [path.sep] is the slash.
    - A JavaScript value that the code may receive where it expects text is
      a [jsval]; numbers are the integers that a JavaScript number holds
      exactly and prints in full, [JObj] is the object without properties,
      and the options object is an ordinary object that can be written to.
    - Code that can throw returns a [result]. *)

From Stdlib Require Import String Ascii List Bool ZArith Lia DecimalString.
Import ListNotations.
Open Scope string_scope.

Set Implicit Arguments.
Set Warnings "-register-all".

(** ** JavaScript values and exceptions *)

Inductive jsval : Type :=
| JUndefined
| JNull
| JBool (b : bool)
| JNum (n : Z)
| JStr (s : string)
| JArr (items : list jsval)
| JObj.

Inductive error : Type :=
| GAError (msg : string)   (* the application error of utils/gaError *)
| TypeError                (* thrown by the engine or by Node's argument checks *)
| FsError (code : string). (* thrown by fs.readdirSync / fs.statSync *)

Inductive result (A : Type) : Type :=
| Ok (a : A)
| Throw (e : error).

Arguments Ok {A} a.
Arguments Throw {A} e.

Definition bind {A B} (r : result A) (k : A -> result B) : result B :=
  match r with
  | Ok a => k a
  | Throw e => Throw e
  end.

Declare Scope js_scope.
Delimit Scope js_scope with js.
Notation "'let!' x ':=' r 'in' k" := (bind r (fun x => k))
  (at level 10, x pattern, r at level 100, k at level 200) : js_scope.
Open Scope js_scope.

(** [typeof v] *)
Definition typeof (v : jsval) : string :=
  match v with
  | JUndefined => "undefined"
  | JNull => "object"
  | JBool _ => "boolean"
  | JNum _ => "number"
  | JStr _ => "string"
  | JArr _ => "object"
  | JObj => "object"
  end.

(** ToBoolean: what [if (v)] tests. *)
Definition truthy (v : jsval) : bool :=
  match v with
  | JUndefined | JNull => false
  | JBool b => b
  | JNum n => negb (Z.eqb n 0)
  | JStr s => negb (String.eqb s "")
  | JArr _ | JObj => true
  end.

(** ToString, as applied by [+] with a string operand. *)
Fixpoint ToString (v : jsval) : string :=
  match v with
  | JUndefined => "undefined"
  | JNull => "null"
  | JBool true => "true"
  | JBool false => "false"
  | JNum n => NilZero.string_of_int (Z.to_int n)
  | JStr s => s
  | JArr items =>
      String.concat ","
        (map (fun x => match x with
                       | JUndefined | JNull => ""
                       | _ => ToString x
                       end) items)
  | JObj => "[object Object]"
  end.

(** [p[0]]: a one-character string, an array element, [undefined] where the
    value has no such property, and a TypeError on [null] and [undefined]. *)
Definition index0 (p : jsval) : result jsval :=
  match p with
  | JUndefined | JNull => Throw TypeError
  | JStr (String c _) => Ok (JStr (String c ""))
  | JArr (x :: _) => Ok x
  | _ => Ok JUndefined
  end.

(** [x == s] for a string [s] that is not a numeric literal (the code only
    compares with ['.'] and [path.sep]): a string compares by content, an
    object by its ToString, and a number or boolean compares with
    ToNumber(s) = NaN, hence never equal. *)
Definition loose_eq_text (x : jsval) (s : string) : bool :=
  match x with
  | JStr t => String.eqb t s
  | JArr _ | JObj => String.eqb (ToString x) s
  | _ => false
  end.

(** [v === true] *)
Definition strict_eq_true (v : jsval) : bool :=
  match v with
  | JBool true => true
  | _ => false
  end.

(** [p.substring(1)]; only strings have the method. *)
Definition substring1 (p : jsval) : result jsval :=
  match p with
  | JStr (String _ rest) => Ok (JStr rest)
  | JStr EmptyString => Ok (JStr "")
  | _ => Throw TypeError
  end.

(** ** utils/regex.js *)

Definition sep : string := "/".

(** The character class of [regexEscape]: [-\/\\^$*+?.()|[\]{}]. *)
Definition escaped_class : list ascii :=
  list_ascii_of_string "-/\^$*+?.()|[]{}".

Definition in_class (c : ascii) (cls : list ascii) : bool :=
  existsb (Ascii.eqb c) cls.

(** [s.replace(/[...]/g, '\\$&')] *)
Fixpoint escape_text (s : string) : string :=
  match s with
  | EmptyString => EmptyString
  | String c rest =>
      if in_class c escaped_class
      then String "\" (String c (escape_text rest))
      else String c (escape_text rest)
  end.

Definition regexEscape (s : jsval) : result string :=
  match s with
  | JStr t => Ok (escape_text t)
  | _ => Throw (GAError ("regexEscape requires a string, we got a " ++ typeof s ++ "."))
  end.

(** [forEach] with a body that may throw, over the accumulator [ap]. *)
Fixpoint forEach {A} (body : A -> jsval -> result A) (s : list jsval) (ap : A) : result A :=
  match s with
  | [] => Ok ap
  | p :: rest => let! ap' := body ap p in forEach body rest ap'
  end.

(** The part shared by the three loop bodies. *)
Definition append_escaped (ap : string) (p : jsval) : result string :=
  let ap := if negb (String.eqb ap "") then ap ++ "|" else ap in
  let! e := regexEscape p in
  Ok (ap ++ e).

Definition sanitizeExtRegex (s : list jsval) : result string :=
  forEach (fun ap p =>
    let! p0 := index0 p in
    let p := if negb (loose_eq_text p0 ".") then JStr ("." ++ ToString p) else p in
    append_escaped ap p) s "".

Definition sanitizeFileRegex (s : list jsval) : result string :=
  forEach (fun ap p =>
    let! p0 := index0 p in
    let! p := (if loose_eq_text p0 sep then substring1 p else Ok p) in
    append_escaped ap p) s "".

Definition sanitizePathRegex (s : list jsval) : result string :=
  forEach (fun ap p =>
    let! p0 := index0 p in
    let p := if negb (loose_eq_text p0 sep) then JStr (sep ++ ToString p) else p in
    append_escaped ap p) s "".

(** ** Regular expressions

    [new RegExp(source, 'i')] is kept as its source text and flag.  [exec]
    reads the source again: the patterns that the parser builds are made of
    the start anchor, one group, alternatives separated by [|], pattern
    characters and identity escapes of the characters of [escaped_class];
    [alternatives_of] reads exactly this fragment of the pattern syntax and
    gives the literal texts of the alternatives, in order. *)

Record RegExp : Type := mkRegExp { source : string; ignoreCase : bool }.

(** The syntax characters of a pattern, which stand for themselves only
    when escaped. *)
Definition syntax_chars : list ascii :=
  list_ascii_of_string "^$\.*+?()[]{}|".

Definition push_char (c : ascii) (alts : list string) : list string :=
  match alts with
  | [] => [String c ""]
  | a :: rest => String c a :: rest
  end.

(** Reads a disjunction up to the parenthesis that closes the group, which
    must be the last character of the pattern. *)
Fixpoint disjunction (s : string) : option (list string) :=
  match s with
  | EmptyString => None
  | String c rest =>
      if Ascii.eqb c "\" then
        match rest with
        | String d rest' =>
            if in_class d escaped_class
            then option_map (push_char d) (disjunction rest')
            else None
        | EmptyString => None
        end
      else if Ascii.eqb c "|" then option_map (cons "") (disjunction rest)
      else if Ascii.eqb c ")" then
        match rest with
        | EmptyString => Some [""]
        | _ => None
        end
      else if in_class c syntax_chars then None
      else option_map (push_char c) (disjunction rest)
  end.

Definition alternatives_of (src : string) : option (list string) :=
  match src with
  | String "^" (String "(" body) => disjunction body
  | _ => None
  end.

(** Canonicalize of the [i] flag, on the code units below 128: a code
    unit of a letter from [a] to [z] goes to its capital, and no other code
    unit, below 128 or not, shares a form with one below 128. *)
Definition canonicalize (c : ascii) : ascii :=
  let n := nat_of_ascii c in
  if andb (Nat.leb 97 n) (Nat.leb n 122) then ascii_of_nat (n - 32) else c.

Definition char_matches (ic : bool) (a b : ascii) : bool :=
  if ic then Ascii.eqb (canonicalize a) (canonicalize b) else Ascii.eqb a b.

(** Matches the literal [lit] at the start of [input]; gives the matched
    text, which is a piece of [input]. *)
Fixpoint match_literal (ic : bool) (lit input : string) : option string :=
  match lit, input with
  | EmptyString, _ => Some ""
  | String a lit', String b input' =>
      if char_matches ic a b
      then option_map (String b) (match_literal ic lit' input')
      else None
  | String _ _, EmptyString => None
  end.

(** Alternatives are tried from left to right. *)
Fixpoint first_match (ic : bool) (alts : list string) (input : string) : option string :=
  match alts with
  | [] => None
  | a :: rest =>
      match match_literal ic a input with
      | Some m => Some m
      | None => first_match ic rest input
      end
  end.

(** [re.exec(input)]: [Some] of [result[0]], or [None] for [null].  The
    expressions are neither global nor sticky, so every call starts at
    position 0, and the anchor allows no other position. *)
Definition exec (re : RegExp) (input : string) : option string :=
  match alternatives_of (source re) with
  | Some alts => first_match (ignoreCase re) alts input
  | None => None
  end.

(** ** Node's [path] module (POSIX) *)

(** [s.split(c)] for a one-character separator. *)
Fixpoint split_on (c : ascii) (s : string) : list string :=
  match s with
  | EmptyString => [""]
  | String d rest =>
      if Ascii.eqb d c then "" :: split_on c rest
      else push_char d (split_on c rest)
  end.

(** [path.basename(p)]: the last portion of the path, trailing separators
    ignored. *)
Definition basename (p : string) : string :=
  fold_left (fun acc seg => if String.eqb seg "" then acc else seg)
            (split_on "/" p) "".

(** Cuts [s] before its last dot. *)
Fixpoint last_dot (s : string) : option (string * string) :=
  match s with
  | EmptyString => None
  | String c rest =>
      match last_dot rest with
      | Some (pre, ext) => Some (String c pre, ext)
      | None => if Ascii.eqb c "." then Some ("", s) else None
      end
  end.

(** [path.extname(p)]: from the last dot of the last portion to its end;
    empty when there is no dot, when the only dot starts the portion, and
    for the portion [..]. *)
Definition extname (p : string) : string :=
  let b := basename p in
  match last_dot b with
  | None => ""
  | Some (pre, ext) =>
      if String.eqb pre "" then ""
      else if String.eqb b ".." then ""
      else ext
  end.

Definition normalize_segments (allowAboveRoot : bool) (segs : list string) : list string :=
  rev (fold_left
         (fun res seg =>
            if String.eqb seg "" || String.eqb seg "." then res
            else if String.eqb seg ".." then
              match res with
              | last :: res' =>
                  if String.eqb last ".."
                  then (if allowAboveRoot then ".." :: res else res)
                  else res'
              | [] => if allowAboveRoot then [".."] else []
              end
            else seg :: res)
         segs []).

Definition ends_with_sep (p : string) : bool :=
  match rev (list_ascii_of_string p) with
  | c :: _ => Ascii.eqb c "/"
  | [] => false
  end.

(** [path.normalize(p)] *)
Definition normalize (p : string) : string :=
  if String.eqb p "" then "."
  else
    let isAbsolute := String.prefix "/" p in
    let trailingSeparator := ends_with_sep p in
    let q := String.concat "/" (normalize_segments (negb isAbsolute) (split_on "/" p)) in
    if String.eqb q "" then
      (if isAbsolute then "/" else if trailingSeparator then "./" else ".")
    else
      let q := if trailingSeparator then q ++ "/" else q in
      if isAbsolute then "/" ++ q else q.

Fixpoint join_args (args : list jsval) (joined : option string) : result (option string) :=
  match args with
  | [] => Ok joined
  | JStr a :: rest =>
      join_args rest
        (if String.eqb a "" then joined
         else match joined with
              | None => Some a
              | Some j => Some (j ++ "/" ++ a)
              end)
  | _ :: _ => Throw TypeError
  end.

(** [path.join(...args)]: a TypeError is thrown if a segment is not a
    string; zero-length segments are skipped. *)
Definition path_join (args : list jsval) : result string :=
  let! joined := join_args args None in
  match joined with
  | None => Ok "."
  | Some j => Ok (normalize j)
  end.

(** ** The parser object *)

Inductive category : Type :=
| allowPaths | ignorePaths | ignoreDirs
| onlyFiles | allowFiles | ignoreFiles | ignoreFilesFirst
| ignoreExts.

Definition category_eqb (a b : category) : bool :=
  match a, b with
  | allowPaths, allowPaths | ignorePaths, ignorePaths | ignoreDirs, ignoreDirs
  | onlyFiles, onlyFiles | allowFiles, allowFiles | ignoreFiles, ignoreFiles
  | ignoreFilesFirst, ignoreFilesFirst | ignoreExts, ignoreExts => true
  | _, _ => false
  end.

(** The options object: [rules o item] is [opts[item]], [JUndefined] for a
    key that is not set. *)
Record Opts : Type := mkOpts {
  rules : category -> jsval;
  ignoreFilesByDefault : jsval;
  ignorePathsByDefault : jsval
}.

Definition Regexes : Type := category -> option RegExp.

Definition set_rule (o : Opts) (item : category) (v : jsval) : Opts :=
  mkOpts (fun c => if category_eqb c item then v else rules o c)
         (ignoreFilesByDefault o) (ignorePathsByDefault o).

Definition set_regex (r : Regexes) (item : category) (re : RegExp) : Regexes :=
  fun c => if category_eqb c item then Some re else r c.

(** Modelled from the spec: [arr.makeArray] of utils/array, which is not
    among the sources; "a small array-normalization helper (wraps a scalar
    into a single-element sequence)". *)
Definition makeArray (v : jsval) : list jsval :=
  match v with
  | JArr items => items
  | _ => [v]
  end.

(** One turn of the loops of [_configureRegex]. *)
Definition configure_item (sanitize : list jsval -> result string) (item : category)
    (s : Opts * Regexes) : result (Opts * Regexes) :=
  let '(opts, regex) := s in
  if truthy (rules opts item) then
    let a := makeArray (rules opts item) in
    let opts := set_rule opts item (JArr a) in
    let! ap := sanitize a in
    if negb (String.eqb ap "")
    then Ok (opts, set_regex regex item (mkRegExp ("^(" ++ ap ++ ")") true))
    else Ok (opts, regex)
  else Ok (opts, regex).

Fixpoint for_of (body : category -> Opts * Regexes -> result (Opts * Regexes))
    (items : list category) (s : Opts * Regexes) : result (Opts * Regexes) :=
  match items with
  | [] => Ok s
  | item :: rest => let! s' := body item s in for_of body rest s'
  end.

Definition sanitizer_of (item : category) : list jsval -> result string :=
  match item with
  | allowPaths | ignorePaths => sanitizePathRegex
  | ignoreExts => sanitizeExtRegex
  | _ => sanitizeFileRegex
  end.

Definition _configureRegex (s : Opts * Regexes) : result (Opts * Regexes) :=
  let! s := for_of (configure_item sanitizePathRegex) [allowPaths; ignorePaths] s in
  let! s := for_of (configure_item sanitizeFileRegex)
              [onlyFiles; allowFiles; ignoreFiles; ignoreFilesFirst; ignoreDirs] s in
  configure_item sanitizeExtRegex ignoreExts s.

Record FsParser : Type := mkFsParser {
  startPath : string;
  absPath : string;
  opts : Opts;
  regex : Regexes
}.

(** [new FsParser(startPath, absPath, opts)], with an options object. *)
Definition new_FsParser (startPath absPath : string) (opts : Opts) : result FsParser :=
  let! (opts, regex) := _configureRegex (opts, fun _ => None) in
  Ok (mkFsParser startPath absPath opts regex).

(** The two private fields that change after construction. *)
Record LogRecord : Type := mkLog { func : string; msg : string }.

Record State : Type := mkState {
  log : list LogRecord;
  results : list string
}.

Definition initial : State := mkState [] [].

Definition _logMsg (func msg : string) (st : State) : State :=
  mkState (log st ++ [mkLog func msg]) (results st).

Definition push_result (filePath : string) (st : State) : State :=
  mkState (log st) (results st ++ [filePath]).

(** [s.replace(pat, '')] with a string pattern: the first occurrence goes. *)
Fixpoint drop (n : nat) (s : string) : string :=
  match n, s with
  | S n', String _ rest => drop n' rest
  | _, _ => s
  end.

Fixpoint replace_first (pat s : string) : string :=
  if String.prefix pat s then drop (String.length pat) s
  else match s with
       | EmptyString => EmptyString
       | String c rest => String c (replace_first pat rest)
       end.

(** The first three statements of both decisions: the path relative to
    [absPath], made to start with the separator. *)
Definition relative (p : FsParser) (filePath : string) : string :=
  let rel := replace_first (absPath p) filePath in
  match rel with
  | String "/" _ => rel
  | _ => sep ++ rel
  end.

(** [if (this.#regex.item) { result = this.#regex.item.exec(input); ... }] *)
Definition consult (p : FsParser) (item : category) (input : string) : option string :=
  match regex p item with
  | Some re => exec re input
  | None => None
  end.

Definition fileTag : string := "FsParser:_doWeProcessFile".
Definition dirTag : string := "FsParser:_doWeProcessDir".

Definition doWeProcessFile (p : FsParser) (filePath : string) (st : State) : bool * State :=
  let rel := relative p filePath in
  let base := basename filePath in
  let ext := extname filePath in
  let st := _logMsg fileTag ("Processing file: " ++ rel) st in
  match regex p onlyFiles with
  | Some re =>
      match exec re base with
      | Some r0 => (true, _logMsg fileTag ("   => only file first via: " ++ r0) st)
      | None => (false, st)
      end
  | None =>
  match consult p ignoreFilesFirst base with
  | Some r0 => (false, _logMsg fileTag ("   => ignore file first via: " ++ r0) st)
  | None =>
  match consult p allowFiles base with
  | Some r0 => (true, _logMsg fileTag ("   => allow file via: " ++ r0) st)
  | None =>
  match consult p ignoreFiles base with
  | Some r0 => (false, _logMsg fileTag ("   => ignore file via: " ++ r0) st)
  | None =>
  match consult p ignoreExts ext with
  | Some r0 => (false, _logMsg fileTag ("   => ignore file extension via: " ++ r0) st)
  | None =>
      if truthy (ignoreFilesByDefault (opts p)) && strict_eq_true (ignoreFilesByDefault (opts p))
      then (false, _logMsg fileTag "   => ignore file by default" st)
      else (true, _logMsg fileTag "   => allow file by default" st)
  end end end end end.

Definition doWeProcessDir (p : FsParser) (filePath entry : string) (st : State) : bool * State :=
  let rel := relative p filePath in
  let st := _logMsg dirTag ("Processing directory: " ++ rel) st in
  match consult p allowPaths rel with
  | Some r0 => (true, _logMsg dirTag ("   => allow path via: " ++ r0) st)
  | None =>
  match consult p ignorePaths rel with
  | Some r0 => (false, _logMsg dirTag ("   => ignore path via: " ++ r0) st)
  | None =>
  match consult p ignoreDirs entry with
  | Some r0 => (false, _logMsg dirTag ("   => ignore dir via: " ++ r0) st)
  | None =>
      if truthy (ignorePathsByDefault (opts p)) && strict_eq_true (ignorePathsByDefault (opts p))
      then (false, _logMsg dirTag "   => ignore dir by default" st)
      else (true, _logMsg dirTag "   => allow dir by default" st)
  end end end.

(** ** The file system

    What [fs.readdirSync] and [fs.statSync] answer below the start path:
    a tree whose directories list their entries by name. *)

Inductive node : Type :=
| File                                  (* stats.isFile() *)
| Dir (entries : list (string * node))  (* stats.isDirectory(), and it lists *)
| Other                                 (* neither a file nor a directory *)
| Unlistable                            (* a directory whose listing fails *)
| Unstatable.                           (* statSync throws: removed, or no permission *)

Inductive Stats : Type := IsFile | IsDirectory | IsOther.

Definition statSync (n : node) : result Stats :=
  match n with
  | File => Ok IsFile
  | Dir _ | Unlistable => Ok IsDirectory
  | Other => Ok IsOther
  | Unstatable => Throw (FsError "ENOENT")
  end.

Definition readdirSync (n : node) : result (list (string * node)) :=
  match n with
  | Dir entries => Ok entries
  | Unlistable => Throw (FsError "EACCES")
  | File | Other => Throw (FsError "ENOTDIR")
  | Unstatable => Throw (FsError "ENOENT")
  end.

(** ** Promises

    An async function runs synchronously up to its first [await].  The
    arrow function given to [map] has no [await]: it runs to its end inside
    [map] and its promise is settled when [map] gets it.  [_parseDir] has
    one [await], its last statement, with nothing after it: all that a call
    does to [#results] and [#log] is done when the call hands its promise
    back, and the promise settles as the [Promise.all] it awaits.  A promise
    is therefore modelled by the way it settles. *)

Inductive promise : Type :=
| Fulfilled
| Rejected (e : error).

(** [Promise.all] of settled promises: rejected as the first rejected one. *)
Fixpoint Promise_all (ps : list promise) : promise :=
  match ps with
  | [] => Fulfilled
  | Fulfilled :: rest => Promise_all rest
  | Rejected e :: _ => Rejected e
  end.

Definition isFile (s : Stats) : bool :=
  match s with IsFile => true | _ => false end.

Definition isDirectory (s : Stats) : bool :=
  match s with IsDirectory => true | _ => false end.

(** The body of the arrow function of [_parseDir], for the entry [entry]
    at which the file system holds [child]; [recurse] is
    [this._parseDir(filePath)].  The promise of the recursive call is not
    used: the arrow function's own promise is fulfilled whatever becomes of
    it, and rejected only by a throw of its own statements. *)
Definition visit (p : FsParser) (recurse : string -> State -> State * promise)
    (dir entry : string) (child : node) (st : State) : State * promise :=
  match path_join [JStr dir; JStr entry] with
  | Throw e => (st, Rejected e)
  | Ok filePath =>
      match statSync child with
      | Throw e => (st, Rejected e)
      | Ok stats =>
          let '(accept, st1) :=
            if isFile stats then doWeProcessFile p filePath st else (false, st) in
          if accept then (push_result filePath st1, Fulfilled)
          else
            let '(descend, st2) :=
              if isDirectory stats then doWeProcessDir p filePath entry st1
              else (false, st1) in
            if descend then (fst (recurse filePath st2), Fulfilled)
            else (st2, Fulfilled)
      end
  end.

(** [_parseDir(dir)], [n] being what the file system holds at [dir].  The
    inner [fix] is [entries.map(async entry => ...)]: the bodies run in
    order, each on the state the one before left.  The recursion is on the
    tree, so the listing of a directory is read off [n]; for the other
    nodes [readdirSync] throws ([_parseDir_eq] below states the function
    with [readdirSync] in front). *)
Fixpoint _parseDir (p : FsParser) (dir : string) (n : node) (st : State) {struct n}
    : State * promise :=
  match n with
  | Dir entries =>
      let fix map_entries (es : list (string * node)) (st : State) : State * list promise :=
        match es with
        | [] => (st, [])
        | (entry, child) :: rest =>
            let '(st1, pr) :=
              visit p (fun filePath s => _parseDir p filePath child s) dir entry child st in
            let '(st2, prs) := map_entries rest st1 in
            (st2, pr :: prs)
        end in
      let '(st', ps) := map_entries entries st in
      (st', Promise_all ps)
  | _ =>
      match readdirSync n with
      | Throw e => (st, Rejected e)
      | Ok _ => (st, Fulfilled)
      end
  end.

(** [entries.map(async entry => ...)] on its own. *)
Definition map_entries (p : FsParser) (dir : string)
    : list (string * node) -> State -> State * list promise :=
  fix map_entries (es : list (string * node)) (st : State) : State * list promise :=
    match es with
    | [] => (st, [])
    | (entry, child) :: rest =>
        let '(st1, pr) :=
          visit p (fun filePath s => _parseDir p filePath child s) dir entry child st in
        let '(st2, prs) := map_entries rest st1 in
        (st2, pr :: prs)
    end.

(** [parse()]: the array that [#results] names after the reset is the one
    that is returned when the awaited promise is fulfilled; a rejection is
    thrown on by the [await]. *)
Definition parse (p : FsParser) (root : node) (st : State) : State * result (list string) :=
  let st := mkState (log st) [] in
  let '(st', pr) := _parseDir p (startPath p) root st in
  match pr with
  | Fulfilled => (st', Ok (results st'))
  | Rejected e => (st', Throw e)
  end.

(** [arr.pop()]: the array without its last element, and that element. *)
Definition pop (a : list string) : list string * jsval :=
  match rev a with
  | [] => ([], JUndefined)
  | x :: r => (rev r, JStr x)
  end.

(** [freeformCheckFile(file)].  [sp] is an array when it is handed to
    [path.join]. *)
Definition freeformCheckFile (p : FsParser) (file : string) (st : State)
    : State * result bool :=
  let sp := split_on "/" file in
  let '(sp, _) := pop sp in
  let '(sp, entry) := pop sp in
  match path_join [JArr (map JStr sp); entry] with
  | Throw e => (st, Throw e)
  | Ok dirPath =>
      let '(okDir, st1) := doWeProcessDir p dirPath (ToString entry) st in
      if negb okDir then (st1, Ok false)
      else
        let '(okFile, st2) := doWeProcessFile p file st1 in
        if negb okFile then (st2, Ok false)
        else (st2, Ok true)
  end.

(** ** What the specification says, in its own words *)

Definition starts_with (c : ascii) (s : string) : bool :=
  match s with
  | String d _ => Ascii.eqb d c
  | EmptyString => false
  end.

(** The normal form of a fragment, by category (§4.1). *)
Definition normalized (item : category) (frag : string) : string :=
  match item with
  | ignoreExts => if starts_with "." frag then frag else "." ++ frag
  | allowPaths | ignorePaths => if starts_with "/" frag then frag else "/" ++ frag
  | _ => if starts_with "/" frag then drop 1 frag else frag
  end.

(** The text fragments that the options give for a category (§3, §6): the
    texts of a list, the text itself for a bare text, none for a category
    that is not set. *)
Inductive fragments (o : Opts) (item : category) : list string -> Prop :=
| fragments_list frags :
    rules o item = JArr (map JStr frags) -> fragments o item frags
| fragments_text t :
    rules o item = JStr t -> t <> "" -> fragments o item [t]
| fragments_unset :
    rules o item = JUndefined -> fragments o item [].

(** "[^(] + escaped-fragments joined by [|] + [)], compiled
    case-insensitive". *)
Definition claimed_matcher (item : category) (frags : list string) : RegExp :=
  mkRegExp ("^(" ++ String.concat "|" (map (fun f => escape_text (normalized item f)) frags) ++ ")")
           true.

Fixpoint fold_case (s : string) : string :=
  match s with
  | EmptyString => EmptyString
  | String c rest => String (canonicalize c) (fold_case rest)
  end.

(** A text made of code units below 128. *)
Fixpoint ascii_text (t : string) : bool :=
  match t with
  | EmptyString => true
  | String c rest => Nat.ltb (nat_of_ascii c) 128 && ascii_text rest
  end.

(** [s] begins with [frag], up to the case of the letters from [a] to
    [z]. *)
Definition begins_with (frag s : string) : Prop :=
  exists pre rest, s = pre ++ rest /\ fold_case pre = fold_case frag.

Definition present (p : FsParser) (item : category) : bool :=
  match regex p item with
  | Some _ => true
  | None => false
  end.

Definition matches (p : FsParser) (item : category) (input : string) : bool :=
  match consult p item input with
  | Some _ => true
  | None => false
  end.

(** The File decision of §4.2, rule by rule. *)
Definition File_decision (p : FsParser) (base ext : string) : bool :=
  if present p onlyFiles then matches p onlyFiles base
  else if matches p ignoreFilesFirst base then false
  else if matches p allowFiles base then true
  else if matches p ignoreFiles base then false
  else if matches p ignoreExts ext then false
  else negb (strict_eq_true (ignoreFilesByDefault (opts p))).

(** The Directory decision of §4.2, rule by rule. *)
Definition Directory_decision (p : FsParser) (rel entry : string) : bool :=
  if matches p allowPaths rel then true
  else if matches p ignorePaths rel then false
  else if matches p ignoreDirs entry then false
  else negb (strict_eq_true (ignorePathsByDefault (opts p))).

(** The decisions as the traversal uses them. *)
Definition file_passes (p : FsParser) (filePath : string) : bool :=
  fst (doWeProcessFile p filePath initial).

Definition dir_passes (p : FsParser) (filePath entry : string) : bool :=
  fst (doWeProcessDir p filePath entry initial).

(** "Those files reachable from root through directories that pass the
    Directory decision and that themselves pass the File decision": [f] is
    such a file below the directory [dir] that lists [es]. *)
Inductive reachable (p : FsParser) : string -> list (string * node) -> string -> Prop :=
| reach_file dir es entry filePath :
    In (entry, File) es ->
    path_join [JStr dir; JStr entry] = Ok filePath ->
    file_passes p filePath = true ->
    reachable p dir es filePath
| reach_dir dir es entry sub filePath f :
    In (entry, Dir sub) es ->
    path_join [JStr dir; JStr entry] = Ok filePath ->
    dir_passes p filePath entry = true ->
    reachable p filePath sub f ->
    reachable p dir es f.

(** A tree every entry of which can be stat-ed and every directory of
    which can be listed. *)
Fixpoint readable (n : node) : bool :=
  match n with
  | File | Other => true
  | Dir es => forallb (fun e => readable (snd e)) es
  | Unlistable | Unstatable => false
  end.

(** Two trees that differ at most inside directories that the Directory
    decision denies. *)
Inductive alike (p : FsParser) : string -> node -> node -> Prop :=
| alike_same dir n : alike p dir n n
| alike_dir dir es es' : alike_entries p dir es es' -> alike p dir (Dir es) (Dir es')
with alike_entries (p : FsParser) : string -> list (string * node) -> list (string * node) -> Prop :=
| alike_nil dir : alike_entries p dir [] []
| alike_denied dir entry d d' es es' filePath :
    path_join [JStr dir; JStr entry] = Ok filePath ->
    statSync d = Ok IsDirectory ->
    statSync d' = Ok IsDirectory ->
    dir_passes p filePath entry = false ->
    alike_entries p dir es es' ->
    alike_entries p dir ((entry, d) :: es) ((entry, d') :: es')
| alike_cons dir entry c c' es es' filePath :
    path_join [JStr dir; JStr entry] = Ok filePath ->
    alike p filePath c c' ->
    alike_entries p dir es es' ->
    alike_entries p dir ((entry, c) :: es) ((entry, c') :: es').

Scheme alike_mut := Minimality for alike Sort Prop
  with alike_entries_mut := Minimality for alike_entries Sort Prop.

(** The tree without what cannot be read: entries that cannot be stat-ed
    are left out, directories that cannot be listed are empty. *)
Fixpoint readable_part (n : node) : node :=
  match n with
  | Dir es =>
      Dir ((fix part (es : list (string * node)) : list (string * node) :=
              match es with
              | [] => []
              | (entry, Unstatable) :: rest => part rest
              | (entry, child) :: rest => (entry, readable_part child) :: part rest
              end) es)
  | Unlistable => Dir []
  | _ => n
  end.

Definition readable_entries : list (string * node) -> list (string * node) :=
  fix part (es : list (string * node)) : list (string * node) :=
    match es with
    | [] => []
    | (entry, Unstatable) :: rest => part rest
    | (entry, child) :: rest => (entry, readable_part child) :: part rest
    end.

(** [path.join(dir, entry)] of two texts. *)
Definition joined (dir entry : string) : string :=
  match path_join [JStr dir; JStr entry] with
  | Ok filePath => filePath
  | Throw _ => ""
  end.

(** What a file of the tree [n] found at [dir] has to satisfy to be
    reachable; nothing is reachable below what is not a listed directory. *)
Definition below (p : FsParser) (dir : string) (n : node) (f : string) : Prop :=
  match n with
  | Dir es => reachable p dir es f
  | _ => False
  end.

(** The failure that the call for the start path itself meets: its listing
    fails, or the stat of one of its own entries does. *)
Fixpoint first_stat_failure (es : list (string * node)) : option error :=
  match es with
  | [] => None
  | (_, child) :: rest =>
      match statSync child with
      | Throw e => Some e
      | Ok _ => first_stat_failure rest
      end
  end.

Definition top_level_failure (root : node) : option error :=
  match readdirSync root with
  | Throw e => Some e
  | Ok es => first_stat_failure es
  end.

(** The scenarios of §8. *)
Definition no_rules : Opts := mkOpts (fun _ => JUndefined) JUndefined JUndefined.

Definition scenario_opts : Opts :=
  set_rule no_rules ignoreDirs (JArr [JStr "node_modules"]).

Definition scenario_tree : node :=
  Dir [("a.txt", File);
       ("sub", Dir [("b.md", File)]);
       ("node_modules", Dir [("c.js", File)])].

(** The parser that [new FsParser('/root', '/root', opts)] gives; for
    options on which the constructor throws, a parser without matchers. *)
Definition built (o : Opts) : FsParser :=
  match new_FsParser "/root" "/root" o with
  | Ok p => p
  | Throw _ => mkFsParser "/root" "/root" o (fun _ => None)
  end.

(** What [_configureRegex] leaves in [#regex[item]] for the value [v] of
    [opts[item]]. *)
Definition compile_category (item : category) (v : jsval) : result (option RegExp) :=
  if truthy v then
    let! ap := sanitizer_of item (makeArray v) in
    Ok (if negb (String.eqb ap "") then Some (mkRegExp ("^(" ++ ap ++ ")") true) else None)
  else Ok None.

(** The accumulation of the loops of the sanitizers, on texts. *)
Definition accumulate (es : list string) (ap : string) : string :=
  fold_left (fun ap e => (if negb (String.eqb ap "") then ap ++ "|" else ap) ++ e) es ap.

Definition push_text (t : string) (alts : list string) : list string :=
  match alts with
  | [] => [t]
  | a :: rest => (t ++ a) :: rest
  end.

(** [compile_category] for any sanitizer. *)
Definition compile_with (san : list jsval -> result string) (v : jsval)
    : result (option RegExp) :=
  if truthy v then
    let! ap := san (makeArray v) in
    Ok (if negb (String.eqb ap "") then Some (mkRegExp ("^(" ++ ap ++ ")") true) else None)
  else Ok None.

(** The turns of [_configureRegex], in order. *)
Fixpoint run_turns (turns : list ((list jsval -> result string) * category))
    (s : Opts * Regexes) : result (Opts * Regexes) :=
  match turns with
  | [] => Ok s
  | (san, item) :: rest => let! s' := configure_item san item s in run_turns rest s'
  end.

Definition all_turns : list ((list jsval -> result string) * category) :=
  [(sanitizePathRegex, allowPaths); (sanitizePathRegex, ignorePaths);
   (sanitizeFileRegex, onlyFiles); (sanitizeFileRegex, allowFiles);
   (sanitizeFileRegex, ignoreFiles); (sanitizeFileRegex, ignoreFilesFirst);
   (sanitizeFileRegex, ignoreDirs); (sanitizeExtRegex, ignoreExts)].

(** The options [{ignoreFilesByDefault: "true", ignorePathsByDefault: 1}]. *)
Definition loose_defaults : Opts := mkOpts (fun _ => JUndefined) (JStr "true") (JNum 1).

(** The options [{ignoreExts: ["txt", ".md"], ignoreDirs: ["/build"],
    allowPaths: "docs"}]. *)
Definition mixed_opts : Opts :=
  set_rule (set_rule (set_rule no_rules ignoreExts (JArr [JStr "txt"; JStr ".md"]))
              ignoreDirs (JArr [JStr "/build"]))
    allowPaths (JStr "docs").

(** The options [{allowPaths: ["docs"], allowFiles: "readme",
    ignoreDirs: [5]}]. *)
Definition number_dir_opts : Opts :=
  set_rule (set_rule (set_rule no_rules allowPaths (JArr [JStr "docs"]))
              allowFiles (JStr "readme"))
    ignoreDirs (JArr [JNum 5]).

(** The options [{allowPaths: ["docs"], allowFiles: "readme"}]. *)
Definition docs_opts : Opts :=
  set_rule (set_rule no_rules allowPaths (JArr [JStr "docs"]))
    allowFiles (JStr "readme").

(** Options whose categories are unset, a text, or a list of texts. *)
Definition text_only (o : Opts) : Prop :=
  forall item,
    rules o item = JUndefined \/
    (exists t, rules o item = JStr t) \/
    (exists frags, rules o item = JArr (map JStr frags)).

(** ** Notions for the further properties *)

(** The state [st] with what [s] holds appended: the records of [s] after
    its log, the paths of [s] after its collection. *)
Definition extend (st s : State) : State :=
  mkState (log st ++ log s) (results st ++ results s).

(** A list of texts without the empty texts at its head. *)
Fixpoint drop_leading_empty (l : list string) : list string :=
  match l with
  | [] => []
  | e :: rest => if String.eqb e "" then drop_leading_empty rest else l
  end.

(** [typeof v == "string"] *)
Definition is_text (v : jsval) : bool :=
  match v with
  | JStr _ => true
  | _ => false
  end.

(** A boolean, or a number that is a safe integer (of magnitude at most
    2^53 - 1): values without a property [0], printed by [+] as [true],
    [false] or the decimal digits. *)
Definition is_coercible (v : jsval) : bool :=
  match v with
  | JBool _ => true
  | JNum n => Z.leb (Z.abs n) 9007199254740991
  | _ => false
  end.

(** The record that tells the rule and the verdict of a File decision,
    if one is written. *)
Definition File_reason (p : FsParser) (base ext : string) : list LogRecord :=
  if present p onlyFiles then
    match consult p onlyFiles base with
    | Some m => [mkLog fileTag ("   => only file first via: " ++ m)]
    | None => []
    end
  else
    match consult p ignoreFilesFirst base with
    | Some m => [mkLog fileTag ("   => ignore file first via: " ++ m)]
    | None =>
    match consult p allowFiles base with
    | Some m => [mkLog fileTag ("   => allow file via: " ++ m)]
    | None =>
    match consult p ignoreFiles base with
    | Some m => [mkLog fileTag ("   => ignore file via: " ++ m)]
    | None =>
    match consult p ignoreExts ext with
    | Some m => [mkLog fileTag ("   => ignore file extension via: " ++ m)]
    | None =>
        if strict_eq_true (ignoreFilesByDefault (opts p))
        then [mkLog fileTag "   => ignore file by default"]
        else [mkLog fileTag "   => allow file by default"]
    end end end end.

(** The record that tells the rule and the verdict of a Directory
    decision. *)
Definition Directory_reason (p : FsParser) (rel entry : string) : LogRecord :=
  match consult p allowPaths rel with
  | Some m => mkLog dirTag ("   => allow path via: " ++ m)
  | None =>
  match consult p ignorePaths rel with
  | Some m => mkLog dirTag ("   => ignore path via: " ++ m)
  | None =>
  match consult p ignoreDirs entry with
  | Some m => mkLog dirTag ("   => ignore dir via: " ++ m)
  | None =>
      if strict_eq_true (ignorePathsByDefault (opts p))
      then mkLog dirTag "   => ignore dir by default"
      else mkLog dirTag "   => allow dir by default"
  end end end.

(** Does the record tell that the entry is processed? *)
Definition tells_allowed (r : LogRecord) : bool :=
  String.prefix "   => allow" (msg r) || String.prefix "   => only" (msg r).

(** Is the pattern of the category, if it has a matcher, made of code
    units below 128? *)
Definition ascii_pattern (p : FsParser) (item : category) : bool :=
  match regex p item with
  | Some re => ascii_text (source re)
  | None => true
  end.

(** Has [t] a character of the class of [regexEscape]? *)
Fixpoint has_special (t : string) : bool :=
  match t with
  | EmptyString => false
  | String c rest => in_class c escaped_class || has_special rest
  end.

(** The options [{allowFiles: ["", "a"], ignoreFiles: ["a", ""]}]. *)
Definition leading_empty_opts : Opts :=
  set_rule (set_rule no_rules allowFiles (JArr [JStr ""; JStr "a"]))
    ignoreFiles (JArr [JStr "a"; JStr ""]).

(** An operation on the state that only appends: on any state it appends
    what it appends to the initial one, and gives the same answer. *)
Definition framed {A} (F : State -> State * A) : Prop :=
  forall st, F st = (extend st (fst (F initial)), snd (F initial)).

(** ** template/nunjucks/nunjucksShortcode.js

    The class [NunjucksShortcode]: its constructor and [run], with the
    four render methods that a subclass overrides.  [parse] only drives
    the parser of Nunjucks and is not modelled. *)

(** The texts that the code takes from elsewhere: [e.message] for an error
    of utils/gaError built with a given text (the class is not among the
    sources), and the messages of the TypeErrors of the engine, for the
    call of what is no function and for the read of a property of a value
    that is [undefined] or [null]. *)
Record Messages : Type := mkMessages {
  ga_message : string -> string;
  not_a_function : string -> string;
  no_property : jsval -> string -> string
}.

(** What can be thrown: an error object whose [message] is a text, or a
    value that is no error and has no property [message]. *)
Inductive thrown : Type :=
| ShortcodeError (text : string)   (* new NunjucksShortcodeError(text, ...) *)
| EngineTypeError (message : string)
| UserError (message : string)     (* an Error of the code of a subclass, a body or a filter *)
| ThrownValue (v : jsval).         (* a value that is no Error: [throw null], [throw "text"] *)

Inductive outcome (A : Type) : Type :=
| Returns (a : A)
| Throws (e : thrown).

Arguments Returns {A} a.
Arguments Throws {A} e.

(** [`${e.message}`]: the text of the message; [undefined], printed, for
    a value without the property; and on [null] and [undefined] the read
    of the property throws. *)
Definition message_of (M : Messages) (e : thrown) : outcome string :=
  match e with
  | ShortcodeError text => Returns (ga_message M text)
  | EngineTypeError message => Returns message
  | UserError message => Returns message
  | ThrownValue JUndefined => Throws (EngineTypeError (no_property M JUndefined "message"))
  | ThrownValue JNull => Throws (EngineTypeError (no_property M JNull "message"))
  | ThrownValue _ => Returns "undefined"
  end.

(** What [run] is handed: data, a context object with [env.filters] (and
    the [safe] filter, when [filters] has one), the body function of a
    paired tag with what its call gives, the callback of an async tag. *)
Inductive value : Type :=
| Data (v : jsval)
| ContextObj (safe : option (jsval -> outcome jsval))
| BodyFn (call : outcome jsval)
| CallbackFn.

(** A call of the callback: [(null, res)], [(err, null)], or no argument. *)
Inductive Call : Type :=
| Resolved (res : jsval)
| Failed (err : thrown)
| Bare.

Record NunjucksShortcode : Type := mkShortcode {
  tags : list jsval;
  config : jsval;
  paired : bool;
  isasync : bool;
  safe : option (jsval -> outcome jsval)   (* [this.safe], not set before [run] *)
}.

(** [new NunjucksShortcode(tags, config, paired, isasync)], the two flags
    being booleans. *)
Definition new_NunjucksShortcode (tags config : jsval) (paired isasync : bool)
    : NunjucksShortcode :=
  mkShortcode (match tags with
               | JArr items => items
               | _ => [tags]
               end) config paired isasync None.

(** The four methods that a subclass overrides.  The async ones are given
    by the way their promise settles. *)
Record Methods : Type := mkMethods {
  render : value -> list value -> outcome jsval;
  renderPaired : value -> jsval -> list value -> outcome jsval;
  renderAsync : value -> list value -> outcome jsval;
  renderAsyncPaired : value -> jsval -> list value -> outcome jsval
}.

(** The methods of [NunjucksShortcode] itself. *)
Definition base_methods : Methods :=
  mkMethods
    (fun _ _ => Throws (ShortcodeError "You must override the 'render' method."))
    (fun _ _ _ => Throws (ShortcodeError "You must override the 'renderPaired' method."))
    (fun _ _ => Throws (ShortcodeError "You must override the 'renderAsync' method."))
    (fun _ _ _ => Throws (ShortcodeError "You must override the 'renderAsyncPaired' method.")).

(** [args.pop()] *)
Definition pop_value (a : list value) : list value * value :=
  match rev a with
  | [] => ([], Data JUndefined)
  | x :: r => (rev r, x)
  end.

(** [context.env.filters.safe] *)
Definition safe_of_context (M : Messages) (context : value)
    : outcome (option (jsval -> outcome jsval)) :=
  match context with
  | ContextObj s => Returns s
  | Data JUndefined => Throws (EngineTypeError (no_property M JUndefined "env"))
  | Data JNull => Throws (EngineTypeError (no_property M JNull "env"))
  | _ => Throws (EngineTypeError (no_property M JUndefined "filters"))
  end.

(** [body()] *)
Definition call_body (M : Messages) (body : value) : outcome jsval * list Call :=
  match body with
  | BodyFn out => (out, [])
  | CallbackFn => (Returns JUndefined, [Bare])
  | _ => (Throws (EngineTypeError (not_a_function M "body")), [])
  end.

(** [this.safe(ret)] *)
Definition call_safe (M : Messages) (self : NunjucksShortcode) (ret : jsval) : outcome jsval :=
  match safe self with
  | Some f => f ret
  | None => Throws (EngineTypeError (not_a_function M "this.safe"))
  end.

(** [resolve(...)] with the arguments of [c]. *)
Definition call_callback (M : Messages) (resolve : value) (c : Call)
    : outcome unit * list Call :=
  match resolve with
  | CallbackFn => (Returns tt, [c])
  | BodyFn (Returns _) => (Returns tt, [])
  | BodyFn (Throws e) => (Throws e, [])
  | _ => (Throws (EngineTypeError (not_a_function M "resolve")), [])
  end.

(** [`${this.tags[0]}`] *)
Definition tag0 (self : NunjucksShortcode) : string :=
  ToString (nth 0 (tags self) JUndefined).

(** What comes of
    [new NunjucksShortcodeError(`Error with Nunjucks shortcode '${this.tags[0]}': ${e.message}`, null, e)]:
    the error, or the TypeError of the read of [e.message]. *)
Definition wrapped (M : Messages) (self : NunjucksShortcode) (e : thrown) : thrown :=
  match message_of M e with
  | Returns message =>
      ShortcodeError ("Error with Nunjucks shortcode '" ++ tag0 self ++ "': " ++ message)
  | Throws failure => failure
  end.

(** The two functions given to [then] and to [catch].  They are written
    with [function], not as arrow functions: their [this] is the one of
    their call, [this_] here. *)
Definition then_function (M : Messages) (this_ : option NunjucksShortcode) (resolve : value)
    (returnValue : jsval) : outcome unit * list Call :=
  match this_ with
  | None => (Throws (EngineTypeError (no_property M JUndefined "safe")), [])
  | Some self =>
      match call_safe M self returnValue with
      | Returns s => call_callback M resolve (Resolved s)
      | Throws e => (Throws e, [])
      end
  end.

Definition catch_function (M : Messages) (this_ : option NunjucksShortcode) (resolve : value)
    (e : thrown) : outcome unit * list Call :=
  match this_ with
  | None => (Throws (EngineTypeError (no_property M JUndefined "tags")), [])
  | Some self =>
      match message_of M e with
      | Returns _ => call_callback M resolve (Failed (wrapped M self e))
      | Throws failure => (Throws failure, [])
      end
  end.

(** [p.then(f).catch(g)] for a promise that settles as [p]: how the chain
    settles, and the calls of the callback made on the way. *)
Definition then_catch (p : outcome jsval)
    (f : jsval -> outcome unit * list Call) (g : thrown -> outcome unit * list Call)
    : outcome unit * list Call :=
  match p with
  | Returns v =>
      match f v with
      | (Returns u, calls) => (Returns u, calls)
      | (Throws e, calls) => let '(r, calls') := g e in (r, (calls ++ calls')%list)
      end
  | Throws e => g e
  end.

(** What a call of [run] comes to: it returns or throws at once, or, for
    an async tag, it returns [undefined] and the chain settles later. *)
Inductive run_result : Type :=
| Sync (r : outcome jsval)
| Async (settled : outcome unit).

(** [run(...args)]: the object afterwards, the calls of the callback, the
    result.  The promise jobs call the two functions with [this]
    undefined (the class body is strict code). *)
Definition run (M : Messages) (m : Methods) (self : NunjucksShortcode) (args : list value)
    : NunjucksShortcode * list Call * run_result :=
  let '(args, resolve) := if isasync self then pop_value args else (args, Data JUndefined) in
  let '(args, body) := if paired self then pop_value args else (args, Data JUndefined) in
  let context := hd (Data JUndefined) args in
  let argArray := tl args in
  match safe_of_context M context with
  | Throws e => (self, [], Sync (Throws e))
  | Returns s =>
      let self := mkShortcode (tags self) (config self) (paired self) (isasync self) s in
      if isasync self then
        if paired self then
          match call_body M body with
          | (Throws e, calls) => (self, calls, Sync (Throws e))
          | (Returns b, calls) =>
              let '(r, calls') :=
                then_catch (renderAsyncPaired m context b argArray)
                  (then_function M None resolve) (catch_function M None resolve) in
              (self, (calls ++ calls')%list, Async r)
          end
        else
          let '(r, calls) :=
            then_catch (renderAsync m context argArray)
              (then_function M None resolve) (catch_function M None resolve) in
          (self, calls, Async r)
      else
        let '(ret, calls) :=
          if paired self then
            match call_body M body with
            | (Throws e, calls) => (Throws e, calls)
            | (Returns b, calls) => (renderPaired m context b argArray, calls)
            end
          else (render m context argArray, []) in
        match (match ret with
               | Returns v => call_safe M self v
               | Throws e => Throws e
               end) with
        | Returns v => (self, calls, Sync (Returns v))
        | Throws e => (self, calls, Sync (Throws (wrapped M self e)))
        end
  end.

(** The arguments that are left when [run] has popped the callback and
    the body: the context and the arguments of the tag. *)
Definition remaining (self : NunjucksShortcode) (args : list value) : list value :=
  let args := if isasync self then fst (pop_value args) else args in
  if paired self then fst (pop_value args) else args.

Definition is_context (v : value) : bool :=
  match v with
  | ContextObj _ => true
  | _ => false
  end.

(** The messages of one engine, for examples. *)
Definition some_messages : Messages :=
  mkMessages (fun text => text)
             (fun what => what ++ " is not a function")
             (fun v name =>
                "Cannot read properties of " ++ ToString v ++ " (reading '" ++ name ++ "')").

(** * Properties *)

(** ** Strings *)

Lemma append_nil_r (s : string) : s ++ "" = s.
Proof. induction s as [|c s IH]; simpl; [reflexivity | now rewrite IH]. Qed.

Lemma append_assoc (a b c : string) : (a ++ b) ++ c = a ++ (b ++ c).
Proof. induction a as [|x a IH]; simpl; [reflexivity | now rewrite IH]. Qed.

Lemma append_eq_nil (a b : string) : a ++ b = "" -> a = "" /\ b = "".
Proof. destruct a; simpl; [auto | discriminate]. Qed.

Lemma escape_text_nil (t : string) : escape_text t = "" -> t = "".
Proof.
  destruct t as [|c t]; cbn [escape_text]; [reflexivity|].
  destruct (in_class c escaped_class); discriminate.
Qed.

(** ** Escaped text reads back as the literal *)

Lemma outside_escaped_class (c : ascii) :
  in_class c escaped_class = false ->
  Ascii.eqb c "\" = false /\ Ascii.eqb c "|" = false /\ Ascii.eqb c ")" = false
  /\ in_class c syntax_chars = false.
Proof.
  unfold in_class, escaped_class, syntax_chars; simpl. intros H.
  repeat (apply orb_false_iff in H; destruct H as [? H]).
  repeat split; try assumption.
  repeat (apply orb_false_iff; split; try assumption). 
Qed.

Lemma push_char_text (c : ascii) (t : string) (alts : list string) :
  push_char c (push_text t alts) = push_text (String c t) alts.
Proof. destruct alts; reflexivity. Qed.

Lemma disjunction_escape (t r : string) :
  disjunction (escape_text t ++ r) = option_map (push_text t) (disjunction r) \/
  disjunction r = Some [].
Proof.
  induction t as [|c t IH]; cbn [escape_text append].
  - destruct (disjunction r) as [[|a l]|]; simpl; auto.
  - destruct IH as [IH|IH]; [|now right]. left.
    destruct (in_class c escaped_class) eqn:E; cbn [append disjunction].
    + change (Ascii.eqb "\" "\") with true. cbv iota. rewrite E, IH. destruct (disjunction r); simpl; [|reflexivity].
      now rewrite push_char_text.
    + destruct (outside_escaped_class c E) as (E1 & E2 & E3 & E4).
      rewrite E1, E2, E3, E4, IH. destruct (disjunction r); simpl; [|reflexivity].
      now rewrite push_char_text.
Qed.

Lemma disjunction_not_nil (s : string) : disjunction s <> Some [].
Proof.
  assert (P : forall c o, option_map (push_char c) o <> Some []).
  { intros c [[|a l]|]; discriminate. }
  destruct s as [|c r]; cbn [disjunction]; [discriminate|].
  destruct (Ascii.eqb c "\").
  - destruct r as [|d r']; [discriminate|].
    destruct (in_class d escaped_class); [apply P | discriminate].
  - destruct (Ascii.eqb c "|").
    + destruct (disjunction r); discriminate.
    + destruct (Ascii.eqb c ")").
      * destruct r; discriminate.
      * destruct (in_class c syntax_chars); [discriminate | apply P].
Qed.

Lemma disjunction_escaped (t r : string) :
  disjunction (escape_text t ++ r) = option_map (push_text t) (disjunction r).
Proof.
  destruct (disjunction_escape t r) as [H|H]; [assumption|].
  now apply disjunction_not_nil in H.
Qed.

(** The escaped fragments, joined, are read as the fragments. *)
Lemma disjunction_joined (l : list string) :
  l <> [] ->
  disjunction (String.concat "|" (map escape_text l) ++ ")") = Some l.
Proof.
  induction l as [|t l IH]; [congruence|]. intros _.
  destruct l as [|t' l].
  - simpl. rewrite disjunction_escaped. simpl. now rewrite append_nil_r.
  - change (String.concat "|" (map escape_text (t :: t' :: l)))
      with (escape_text t ++ "|" ++ String.concat "|" (map escape_text (t' :: l))).
    rewrite append_assoc, disjunction_escaped.
    change (("|" ++ String.concat "|" (map escape_text (t' :: l))) ++ ")")
      with (String "|" (String.concat "|" (map escape_text (t' :: l)) ++ ")")).
    cbn [disjunction]. change (Ascii.eqb "|" "\") with false.
    change (Ascii.eqb "|" "|") with true. cbv iota.
    rewrite IH by discriminate. simpl. now rewrite append_nil_r.
Qed.

(** ** Matching *)

Lemma match_literal_sound (ic : bool) (lit : string) :
  forall input m, match_literal ic lit input = Some m ->
    exists rest, input = m ++ rest /\ String.length m = String.length lit.
Proof.
  induction lit as [|a lit IH]; intros input m H; simpl in H.
  - injection H as <-. now exists input.
  - destruct input as [|b input]; [discriminate|].
    destruct (char_matches ic a b); [|discriminate].
    destruct (match_literal ic lit input) as [m'|] eqn:E; [|discriminate].
    injection H as <-. destruct (IH _ _ E) as (rest & -> & L).
    exists rest. simpl. now rewrite L.
Qed.

Lemma match_literal_begins (lit : string) :
  forall input, match_literal true lit input <> None <-> begins_with lit input.
Proof.
  induction lit as [|a lit IH]; intros input; simpl.
  - split; [|discriminate]. intros _. now exists "", input.
  - destruct input as [|b input].
    + split; [congruence|]. intros (pre & rest & E & F).
      destruct pre; [discriminate F | discriminate E].
    + unfold char_matches. destruct (Ascii.eqb_spec (canonicalize a) (canonicalize b)) as [C|C].
      * destruct (match_literal true lit input) as [m|] eqn:M; simpl.
        -- split; [|discriminate]. intros _.
           assert (B : begins_with lit input) by (apply IH; congruence).
           destruct B as (pre & rest & -> & F).
           exists (String b pre), rest. simpl. now rewrite F, C.
        -- split; [congruence|]. intros (pre & rest & E & F). exfalso.
           destruct pre as [|c pre]; [discriminate F|].
           simpl in E, F. injection E as -> ->. injection F as _ F.
           assert (B : begins_with lit (pre ++ rest)) by now exists pre, rest.
           apply IH in B. congruence.
      * split; [congruence|]. intros (pre & rest & E & F). exfalso.
        destruct pre as [|c pre]; [discriminate F|].
        simpl in E, F. injection E as -> _. injection F as F _. congruence.
Qed.

Lemma first_match_some (ic : bool) (alts : list string) (input : string) :
  first_match ic alts input <> None <->
  exists a, In a alts /\ match_literal ic a input <> None.
Proof.
  induction alts as [|a alts IH]; simpl.
  - split; [congruence | intros (a & [] & _)].
  - destruct (match_literal ic a input) eqn:M.
    + split; [|discriminate]. intros _. exists a. split; [now left | congruence].
    + rewrite IH. split; intros (x & I & N).
      * exists x. split; [now right | assumption].
      * destruct I as [<-|I]; [congruence|]. now exists x.
Qed.


(** ** The sanitizers on text fragments *)

Lemma append_escaped_text (ap t : string) :
  append_escaped ap (JStr t) =
  Ok ((if negb (String.eqb ap "") then ap ++ "|" else ap) ++ escape_text t).
Proof. reflexivity. Qed.

Lemma one_char_eqb (c d : ascii) :
  String.eqb (String c "") (String d "") = Ascii.eqb c d.
Proof. simpl. now destruct (Ascii.eqb c d). Qed.

Lemma forEach_texts (body : string -> jsval -> result string) (norm : string -> string) :
  (forall ap f, body ap (JStr f) = append_escaped ap (JStr (norm f))) ->
  forall l ap,
    forEach body (map JStr l) ap = Ok (accumulate (map (fun f => escape_text (norm f)) l) ap).
Proof.
  intros B. unfold accumulate.
  induction l as [|f l IH]; intros ap; [reflexivity|].
  cbn [map forEach fold_left]. rewrite B, append_escaped_text. cbn [bind]. apply IH.
Qed.

Lemma sanitizeExtRegex_texts (l : list string) :
  sanitizeExtRegex (map JStr l) =
  Ok (accumulate (map (fun f => escape_text (normalized ignoreExts f)) l) "").
Proof.
  apply forEach_texts. intros ap [|c f]; [reflexivity|].
  cbn [index0 bind loose_eq_text normalized starts_with ToString].
  change "."%string with (String "."%char "") at 1. rewrite one_char_eqb.
  destruct (Ascii.eqb c "."); reflexivity.
Qed.

Lemma sanitizeFileRegex_texts (l : list string) :
  sanitizeFileRegex (map JStr l) =
  Ok (accumulate
        (map (fun f => escape_text (if starts_with "/" f then drop 1 f else f)) l) "").
Proof.
  apply (forEach_texts _ (fun f => if starts_with "/" f then drop 1 f else f)).
  intros ap [|c f]; [reflexivity|].
  cbn [index0 bind loose_eq_text starts_with].
  unfold sep. rewrite one_char_eqb.
  destruct (Ascii.eqb c "/"); reflexivity.
Qed.

Lemma sanitizePathRegex_texts (l : list string) :
  sanitizePathRegex (map JStr l) =
  Ok (accumulate
        (map (fun f => escape_text (if starts_with "/" f then f else "/" ++ f)) l) "").
Proof.
  apply (forEach_texts _ (fun f => if starts_with "/" f then f else "/" ++ f)).
  intros ap [|c f]; [reflexivity|].
  cbn [index0 bind loose_eq_text starts_with ToString].
  unfold sep. rewrite one_char_eqb.
  destruct (Ascii.eqb c "/"); reflexivity.
Qed.

Lemma sanitizer_of_texts (item : category) (l : list string) :
  sanitizer_of item (map JStr l) =
  Ok (accumulate (map (fun f => escape_text (normalized item f)) l) "").
Proof.
  destruct item; cbn [sanitizer_of normalized];
    first [ apply sanitizeExtRegex_texts
          | apply sanitizePathRegex_texts
          | apply sanitizeFileRegex_texts ].
Qed.

(** The accumulation is the join when no text is empty. *)
Lemma concat_empty_sep (x : string) (xs : list string) :
  String.concat "" (x :: xs) = x ++ String.concat "" xs.
Proof. destruct xs; simpl; [now rewrite append_nil_r | reflexivity]. Qed.

Lemma accumulate_from (es : list string) (ap : string) :
  ap <> "" ->
  accumulate es ap = ap ++ String.concat "" (map (fun e => "|" ++ e) es).
Proof.
  revert ap. unfold accumulate.
  induction es as [|e es IH]; intros ap NE; cbn [fold_left map].
  - simpl. now rewrite append_nil_r.
  - destruct (String.eqb_spec ap "") as [->|_]; [congruence|]. cbn [negb].
    rewrite IH, concat_empty_sep.
    + now rewrite !append_assoc.
    + intros K. apply append_eq_nil in K. destruct K as [K _].
      apply append_eq_nil in K. now destruct K.
Qed.

Lemma concat_cons (e : string) (es : list string) :
  String.concat "|" (e :: es) = e ++ String.concat "" (map (fun x => "|" ++ x) es).
Proof.
  revert e. induction es as [|e' es IH]; intros e.
  - simpl. now rewrite append_nil_r.
  - change (String.concat "|" (e :: e' :: es)) with (e ++ "|" ++ String.concat "|" (e' :: es)).
    rewrite IH. cbn [map]. now rewrite concat_empty_sep, append_assoc.
Qed.

Lemma accumulate_concat (es : list string) :
  Forall (fun e => e <> "") es ->
  accumulate es "" = String.concat "|" es.
Proof.
  destruct es as [|e es]; [reflexivity|]. intros F. inversion F as [|? ? NE _]; subst.
  rewrite concat_cons. unfold accumulate. cbn [fold_left String.eqb negb append].
  now apply accumulate_from.
Qed.



(** ** [_configureRegex], category by category *)

Lemma compile_category_with (item : category) (v : jsval) :
  compile_category item v = compile_with (sanitizer_of item) v.
Proof. reflexivity. Qed.

Lemma category_eqb_refl (c : category) : category_eqb c c = true.
Proof. now destruct c. Qed.

(** A turn of the loop that does not throw sets the matcher of its own
    category and touches no other category. *)
Lemma configure_item_inv san item o r o' r' :
  configure_item san item (o, r) = Ok (o', r') ->
  (forall c, category_eqb c item = false -> r' c = r c /\ rules o' c = rules o c) /\
  exists x, compile_with san (rules o item) = Ok x /\
            r' item = match x with Some re => Some re | None => r item end.
Proof.
  unfold configure_item, compile_with.
  destruct (truthy (rules o item)).
  - destruct (san (makeArray (rules o item))) as [ap|e]; cbn [bind]; [|discriminate].
    destruct (negb (String.eqb ap "")); intros [= <- <-].
    + split.
      * intros c E. unfold set_regex, set_rule. cbn [rules]. now rewrite E.
      * eexists. split; [reflexivity|]. unfold set_regex. now rewrite category_eqb_refl.
    + split.
      * intros c E. unfold set_rule. cbn [rules]. now rewrite E.
      * eexists. split; reflexivity.
  - intros [= <- <-]. split; [auto|]. eexists. split; reflexivity.
Qed.

(** A turn of the loop throws only if its sanitizer does. *)
Lemma configure_item_ok san item o r x :
  compile_with san (rules o item) = Ok x ->
  exists o' r', configure_item san item (o, r) = Ok (o', r').
Proof.
  unfold configure_item, compile_with.
  destruct (truthy (rules o item)); [|intros _; now eexists _, _].
  destruct (san (makeArray (rules o item))) as [ap|e]; cbn [bind]; [|discriminate].
  intros _. destruct (negb (String.eqb ap "")); now eexists _, _.
Qed.

Ltac untouched c :=
  repeat match goal with
         | U : forall c', category_eqb c' ?i = false -> _ |- _ =>
             first [ destruct (U c eq_refl) as [? ?]; clear U | clear U ]
         end.

Ltac next_turn H :=
  match type of H with
  | bind ?t _ = Ok _ =>
      let o' := fresh "o" in
      let r' := fresh "r" in
      let E := fresh "E" in
      destruct t as [[o' r']|] eqn:E; cbn [bind] in H; [|discriminate H];
      apply configure_item_inv in E;
      let U := fresh "U" in
      let x := fresh "x" in
      let C := fresh "C" in
      let R := fresh "R" in
      destruct E as [U (x & C & R)]
  end.

Lemma _configureRegex_turns (s : Opts * Regexes) :
  _configureRegex s =
  let! s := configure_item sanitizePathRegex allowPaths s in
  let! s := configure_item sanitizePathRegex ignorePaths s in
  let! s := configure_item sanitizeFileRegex onlyFiles s in
  let! s := configure_item sanitizeFileRegex allowFiles s in
  let! s := configure_item sanitizeFileRegex ignoreFiles s in
  let! s := configure_item sanitizeFileRegex ignoreFilesFirst s in
  let! s := configure_item sanitizeFileRegex ignoreDirs s in
  configure_item sanitizeExtRegex ignoreExts s.
Proof.
  unfold _configureRegex. cbn [for_of].
  repeat match goal with
         | |- context [configure_item ?san ?item ?x] =>
             match x with
             | s => idtac
             | _ => is_var x
             end;
             let s' := fresh "s" in
             destruct (configure_item san item x) as [s'|]; cbn [bind]; [|reflexivity]
         end.
  reflexivity.
Qed.

(** The matcher of each category is compiled from the value of that
    category alone. *)
Lemma new_FsParser_regex (sp ap : string) (o : Opts) (p : FsParser) :
  new_FsParser sp ap o = Ok p ->
  forall item, compile_category item (rules o item) = Ok (regex p item).
Proof.
  unfold new_FsParser. rewrite _configureRegex_turns.
  match goal with
  | |- bind ?t _ = _ -> _ => destruct t as [[o8 r8]|] eqn:K
  end; cbn [bind]; [|discriminate].
  intros [= <-]. cbn [regex].
  do 7 next_turn K.
  apply configure_item_inv in K. destruct K as [U' (x' & C' & R')].
  intros item. rewrite compile_category_with.
  destruct item; cbn [sanitizer_of];
    match goal with
    | |- compile_with _ (rules _ ?c) = _ => untouched c
    end;
    repeat match goal with
           | E : ?a = _ |- _ => rewrite E in *
           end;
    repeat match goal with
           | x : option RegExp |- _ => destruct x
           end;
    congruence.
Qed.

Lemma category_eqb_neq (c d : category) : c <> d -> category_eqb c d = false.
Proof. destruct c, d; intros N; try reflexivity; now elim N. Qed.

Lemma _configureRegex_run (s : Opts * Regexes) :
  _configureRegex s = run_turns all_turns s.
Proof.
  rewrite _configureRegex_turns. cbn [run_turns all_turns].
  repeat match goal with
         | |- context [configure_item ?san ?item ?x] =>
             match x with
             | s => idtac
             | _ => is_var x
             end;
             let s' := fresh "s" in
             destruct (configure_item san item x) as [s'|]; cbn [bind]; [|reflexivity]
         end.
  reflexivity.
Qed.

(** The turns of [_configureRegex] do not throw when no sanitizer does. *)
Lemma turns_ok (turns : list ((list jsval -> result string) * category)) (o0 : Opts) :
  NoDup (map snd turns) ->
  (forall san item, In (san, item) turns -> exists x, compile_with san (rules o0 item) = Ok x) ->
  forall o r,
    (forall san item, In (san, item) turns -> rules o item = rules o0 item) ->
    exists s, run_turns turns (o, r) = Ok s.
Proof.
  induction turns as [|[san item] turns IH]; intros ND A o r I; cbn [run_turns].
  - now eexists.
  - inversion ND as [|? ? NI ND']; subst.
    destruct (A san item (or_introl eq_refl)) as [x X].
    rewrite <- (I san item (or_introl eq_refl)) in X.
    destruct (configure_item_ok san item o r X) as (o' & r' & E).
    rewrite E. cbn [bind].
    apply configure_item_inv in E. destruct E as [U _].
    apply IH; [assumption | intros; apply A; now right |].
    intros san' item' M.
    destruct (U item') as [_ ->]; [|apply (I san' item'); now right].
    apply category_eqb_neq. intros ->. apply NI.
    now apply (in_map snd) in M.
Qed.

Lemma new_FsParser_ok (sp ap : string) (o : Opts) :
  (forall item, exists x, compile_category item (rules o item) = Ok x) ->
  exists p, new_FsParser sp ap o = Ok p.
Proof.
  intros A.
  destruct (@turns_ok all_turns o) with (o := o) (r := fun _ : category => @None RegExp)
    as [[o' r'] E].
  - cbn [map snd all_turns].
    repeat (constructor; [cbn [In]; intuition discriminate|]). constructor.
  - intros san item M. cbn [In all_turns] in M.
    repeat (destruct M as [[= <- <-]|M];
            [match goal with
             | |- exists x, compile_with _ (rules _ ?c) = _ => exact (A c)
             end|]).
    destruct M.
  - reflexivity.
  - unfold new_FsParser. rewrite _configureRegex_run.
    unfold Regexes in *. rewrite E. now eexists.
Qed.

(** A list of texts compiles. *)
Lemma compile_category_texts (item : category) (l : list string) :
  compile_category item (JArr (map JStr l)) =
  Ok (let ap := accumulate (map (fun f => escape_text (normalized item f)) l) "" in
      if negb (String.eqb ap "") then Some (mkRegExp ("^(" ++ ap ++ ")") true) else None).
Proof.
  unfold compile_category. cbn [truthy makeArray]. now rewrite sanitizer_of_texts.
Qed.

(** ** The two decisions *)

Lemma matches_consult (p : FsParser) (item : category) (input : string) :
  matches p item input = match consult p item input with Some _ => true | None => false end.
Proof. reflexivity. Qed.

Lemma default_test (v : jsval) :
  truthy v && strict_eq_true v = strict_eq_true v.
Proof. destruct v as [| |[|]| | | |]; cbn [strict_eq_true]; now rewrite ?andb_false_r. Qed.

Lemma doWeProcessFile_decision (p : FsParser) (filePath : string) (st : State) :
  fst (doWeProcessFile p filePath st) =
  File_decision p (basename filePath) (extname filePath).
Proof.
  unfold doWeProcessFile, File_decision, present.
  rewrite !matches_consult, default_test.
  destruct (regex p onlyFiles) as [re|] eqn:R.
  - unfold consult. rewrite R. now destruct (exec re (basename filePath)).
  - destruct (consult p ignoreFilesFirst (basename filePath)); [reflexivity|].
    destruct (consult p allowFiles (basename filePath)); [reflexivity|].
    destruct (consult p ignoreFiles (basename filePath)); [reflexivity|].
    destruct (consult p ignoreExts (extname filePath)); [reflexivity|].
    now destruct (strict_eq_true (ignoreFilesByDefault (opts p))).
Qed.

Lemma doWeProcessDir_decision (p : FsParser) (filePath entry : string) (st : State) :
  fst (doWeProcessDir p filePath entry st) =
  Directory_decision p (relative p filePath) entry.
Proof.
  unfold doWeProcessDir, Directory_decision.
  rewrite !matches_consult, default_test.
  destruct (consult p allowPaths (relative p filePath)); [reflexivity|].
  destruct (consult p ignorePaths (relative p filePath)); [reflexivity|].
  destruct (consult p ignoreDirs entry); [reflexivity|].
  now destruct (strict_eq_true (ignorePathsByDefault (opts p))).
Qed.

(** A decision only appends to the log: on any state it does what it does
    on the initial one. *)
Lemma doWeProcessFile_frame (p : FsParser) (filePath : string) (st : State) :
  doWeProcessFile p filePath st =
  (file_passes p filePath,
   mkState (log st ++ log (snd (doWeProcessFile p filePath initial))) (results st)).
Proof.
  unfold file_passes, doWeProcessFile, _logMsg. cbn [log results initial].
  destruct (regex p onlyFiles) as [re|].
  - destruct (exec re (basename filePath)); cbn [fst snd log results];
      now rewrite <- ?app_assoc.
  - repeat match goal with
           | |- context [consult p ?i ?x] => destruct (consult p i x)
           end;
      try destruct (truthy _ && strict_eq_true _);
      cbn [fst snd log results]; now rewrite <- ?app_assoc.
Qed.

Lemma doWeProcessDir_frame (p : FsParser) (filePath entry : string) (st : State) :
  doWeProcessDir p filePath entry st =
  (dir_passes p filePath entry,
   mkState (log st ++ log (snd (doWeProcessDir p filePath entry initial))) (results st)).
Proof.
  unfold dir_passes, doWeProcessDir, _logMsg. cbn [log results initial].
  repeat match goal with
         | |- context [consult p ?i ?x] => destruct (consult p i x)
         end;
    try destruct (truthy _ && strict_eq_true _);
    cbn [fst snd log results]; now rewrite <- ?app_assoc.
Qed.

(** ** The traversal *)

Lemma path_join_texts (dir entry : string) :
  path_join [JStr dir; JStr entry] = Ok (joined dir entry).
Proof.
  unfold joined, path_join. cbn [join_args].
  destruct (String.eqb dir ""), (String.eqb entry ""); reflexivity.
Qed.

Lemma _parseDir_Dir (p : FsParser) (dir : string) (es : list (string * node)) (st : State) :
  _parseDir p dir (Dir es) st =
  let '(st', ps) := map_entries p dir es st in (st', Promise_all ps).
Proof. reflexivity. Qed.

(** [_parseDir] as the source has it, the listing first. *)
Lemma _parseDir_eq (p : FsParser) (dir : string) (n : node) (st : State) :
  _parseDir p dir n st =
  match readdirSync n with
  | Throw e => (st, Rejected e)
  | Ok entries => let '(st', ps) := map_entries p dir entries st in (st', Promise_all ps)
  end.
Proof. destruct n; reflexivity. Qed.

Lemma map_entries_cons (p : FsParser) (dir entry : string) (child : node)
    (rest : list (string * node)) (st : State) :
  map_entries p dir ((entry, child) :: rest) st =
  let '(st1, pr) :=
    visit p (fun filePath s => _parseDir p filePath child s) dir entry child st in
  let '(st2, prs) := map_entries p dir rest st1 in
  (st2, pr :: prs).
Proof. reflexivity. Qed.

Lemma readable_part_Dir (es : list (string * node)) :
  readable_part (Dir es) = Dir (readable_entries es).
Proof. reflexivity. Qed.

(** What the arrow function does, by the kind of the entry. *)
Lemma visit_eq (p : FsParser) (recurse : string -> State -> State * promise)
    (dir entry : string) (child : node) (st : State) :
  visit p recurse dir entry child st =
  let filePath := joined dir entry in
  match statSync child with
  | Throw e => (st, Rejected e)
  | Ok IsFile =>
      let st' := snd (doWeProcessFile p filePath st) in
      if file_passes p filePath then (push_result filePath st', Fulfilled)
      else (st', Fulfilled)
  | Ok IsDirectory =>
      let st' := snd (doWeProcessDir p filePath entry st) in
      if dir_passes p filePath entry then (fst (recurse filePath st'), Fulfilled)
      else (st', Fulfilled)
  | Ok IsOther => (st, Fulfilled)
  end.
Proof.
  unfold visit. rewrite path_join_texts.
  destruct (statSync child) as [[| |]|e]; cbn [isFile isDirectory]; try reflexivity.
  - rewrite doWeProcessFile_frame. cbn [snd].
    now destruct (file_passes p (joined dir entry)).
  - rewrite doWeProcessDir_frame. cbn [snd].
    now destruct (dir_passes p (joined dir entry) entry).
Qed.

Lemma node_nested_ind (P : node -> Prop) :
  P File -> P Other -> P Unlistable -> P Unstatable ->
  (forall es, Forall (fun e => P (snd e)) es -> P (Dir es)) ->
  forall n, P n.
Proof.
  intros HF HO HL HS HD. fix IH 1. intros [|es| | |]; try assumption.
  apply HD. induction es as [|[entry child] es IHes]; constructor.
  - apply IH.
  - apply IHes.
Qed.

Lemma results_of_file_decision (p : FsParser) (filePath : string) (st : State) :
  results (snd (doWeProcessFile p filePath st)) = results st.
Proof. now rewrite doWeProcessFile_frame. Qed.

Lemma results_of_dir_decision (p : FsParser) (filePath entry : string) (st : State) :
  results (snd (doWeProcessDir p filePath entry st)) = results st.
Proof. now rewrite doWeProcessDir_frame. Qed.

(** The head of a listing and the rest of it, for reachability. *)
Lemma reachable_cons (p : FsParser) (dir entry : string) (child : node)
    (es : list (string * node)) (f : string) :
  reachable p dir ((entry, child) :: es) f <->
  match child with
  | File => f = joined dir entry /\ file_passes p (joined dir entry) = true
  | Dir sub => dir_passes p (joined dir entry) entry = true /\
               reachable p (joined dir entry) sub f
  | _ => False
  end \/ reachable p dir es f.
Proof.
  split.
  - intros R. inversion R as [d l e fp I J Pf|d l e sub fp g I J Pd Rs]; subst.
    + rewrite path_join_texts in J. injection J as <-.
      destruct I as [[= <- ->]|I]; [left; now split | right].
      eapply reach_file; eauto. apply path_join_texts.
    + rewrite path_join_texts in J. injection J as <-.
      destruct I as [[= <- ->]|I]; [left; now split | right].
      eapply reach_dir; eauto. apply path_join_texts.
  - intros [H|R].
    + destruct child; try contradiction; destruct H as [A B].
      * subst f. eapply reach_file; [now left | apply path_join_texts | assumption].
      * eapply reach_dir; [now left | apply path_join_texts | assumption | assumption].
    + inversion R as [d l e fp I J Pf|d l e sub fp g I J Pd Rs]; subst.
      * eapply reach_file; [right; eassumption | eassumption | assumption].
      * eapply reach_dir; [right; eassumption | eassumption | assumption | assumption].
Qed.

Lemma reachable_nil (p : FsParser) (dir f : string) : ~ reachable p dir [] f.
Proof. intros R. inversion R; subst; contradiction. Qed.

Lemma map_entries_state (p : FsParser) (dir entry : string) (child : node)
    (rest : list (string * node)) (st : State) :
  fst (map_entries p dir ((entry, child) :: rest) st) =
  fst (map_entries p dir rest
         (fst (visit p (fun filePath s => _parseDir p filePath child s) dir entry child st))).
Proof.
  rewrite map_entries_cons.
  destruct (visit _ _ _ _ _ _) as [st1 pr]. cbn [fst].
  now destruct (map_entries p dir rest st1).
Qed.

Lemma map_entries_promises (p : FsParser) (dir entry : string) (child : node)
    (rest : list (string * node)) (st : State) :
  snd (map_entries p dir ((entry, child) :: rest) st) =
  snd (visit p (fun filePath s => _parseDir p filePath child s) dir entry child st)
  :: snd (map_entries p dir rest
            (fst (visit p (fun filePath s => _parseDir p filePath child s) dir entry child st))).
Proof.
  rewrite map_entries_cons.
  destruct (visit _ _ _ _ _ _) as [st1 pr]. cbn [fst snd].
  now destruct (map_entries p dir rest st1).
Qed.

(** The promise of the arrow function is rejected only by [statSync]. *)
Lemma visit_promise (p : FsParser) (recurse : string -> State -> State * promise)
    (dir entry : string) (child : node) (st : State) :
  snd (visit p recurse dir entry child st) =
  match statSync child with
  | Throw e => Rejected e
  | Ok _ => Fulfilled
  end.
Proof.
  rewrite visit_eq. destruct (statSync child) as [[| |]|e]; cbn zeta; try reflexivity.
  - now destruct (file_passes p (joined dir entry)).
  - now destruct (dir_passes p (joined dir entry) entry).
Qed.

Lemma _parseDir_state (p : FsParser) (dir : string) (n : node) (st : State) :
  fst (_parseDir p dir n st) =
  match n with
  | Dir es => fst (map_entries p dir es st)
  | _ => st
  end.
Proof.
  destruct n; try reflexivity.
  rewrite _parseDir_Dir. now destruct (map_entries p dir entries st).
Qed.

(** *** The collection is the set of the reachable files *)

Lemma map_entries_results (p : FsParser) (es : list (string * node)) :
  Forall (fun e => forall dir st, exists l,
              results (fst (_parseDir p dir (snd e) st)) = (results st ++ l)%list /\
              forall f, In f l <-> below p dir (snd e) f) es ->
  forall dir st, exists l,
    results (fst (map_entries p dir es st)) = (results st ++ l)%list /\
    forall f, In f l <-> reachable p dir es f.
Proof.
  induction 1 as [|[entry child] es H _ IH]; intros dir st.
  - exists []. split; [cbn; now rewrite app_nil_r|].
    intros f. split; [intros [] | intros R; now apply reachable_nil in R].
  - rewrite map_entries_state, visit_eq. cbn [snd] in H.
    destruct child; cbn [statSync]; cbn zeta.
    + (* a file *)
      destruct (file_passes p (joined dir entry)) eqn:Pf; cbn [fst].
      * destruct (IH dir (push_result (joined dir entry)
                            (snd (doWeProcessFile p (joined dir entry) st)))) as (l & E & C).
        exists (joined dir entry :: l). split.
        -- rewrite E. cbn [push_result results].
           now rewrite results_of_file_decision, <- app_assoc.
        -- intros f. rewrite reachable_cons, <- C. cbn [In]. intuition congruence.
      * destruct (IH dir (snd (doWeProcessFile p (joined dir entry) st))) as (l & E & C).
        exists l. split; [now rewrite E, results_of_file_decision|].
        intros f. rewrite reachable_cons, <- C. intuition congruence.
    + (* a directory *)
      destruct (dir_passes p (joined dir entry) entry) eqn:Pd; cbn [fst].
      * destruct (H (joined dir entry) (snd (doWeProcessDir p (joined dir entry) entry st)))
          as (l1 & E1 & C1).
        destruct (IH dir (fst (_parseDir p (joined dir entry) (Dir entries)
                                 (snd (doWeProcessDir p (joined dir entry) entry st)))))
          as (l & E & C).
        exists (l1 ++ l)%list. split.
        -- now rewrite E, E1, results_of_dir_decision, app_assoc.
        -- intros f. rewrite reachable_cons, in_app_iff, <- C, C1. cbn [below].
           intuition congruence.
      * destruct (IH dir (snd (doWeProcessDir p (joined dir entry) entry st))) as (l & E & C).
        exists l. split; [now rewrite E, results_of_dir_decision|].
        intros f. rewrite reachable_cons, <- C. intuition congruence.
    + (* neither *)
      destruct (IH dir st) as (l & E & C). exists l. split; [assumption|].
      intros f. rewrite reachable_cons, <- C. tauto.
    + (* a directory that does not list *)
      destruct (dir_passes p (joined dir entry) entry); cbn [fst _parseDir readdirSync];
        destruct (IH dir (snd (doWeProcessDir p (joined dir entry) entry st))) as (l & E & C);
        (exists l; split; [now rewrite E, results_of_dir_decision|]);
        intros f; rewrite reachable_cons, <- C; tauto.
    + (* an entry that does not stat *)
      destruct (IH dir st) as (l & E & C). exists l. split; [assumption|].
      intros f. rewrite reachable_cons, <- C. tauto.
Qed.

Lemma _parseDir_results (p : FsParser) (n : node) :
  forall dir st, exists l,
    results (fst (_parseDir p dir n st)) = (results st ++ l)%list /\
    forall f, In f l <-> below p dir n f.
Proof.
  induction n as [| | | |es IH] using node_nested_ind; intros dir st;
    try (exists []; split; [cbn; now rewrite app_nil_r | intros f; cbn; tauto]).
  rewrite _parseDir_state. cbn [below]. now apply map_entries_results.
Qed.

(** *** When the promise of the walk is fulfilled *)

Lemma map_entries_all (p : FsParser) (dir : string) (es : list (string * node)) :
  forall st, Promise_all (snd (map_entries p dir es st)) =
             match first_stat_failure es with
             | Some e => Rejected e
             | None => Fulfilled
             end.
Proof.
  induction es as [|[entry child] es IH]; intros st; [reflexivity|].
  rewrite map_entries_promises, visit_promise. cbn [first_stat_failure Promise_all].
  destruct (statSync child); [apply IH | reflexivity].
Qed.

Lemma _parseDir_promise (p : FsParser) (dir : string) (n : node) (st : State) :
  snd (_parseDir p dir n st) =
  match top_level_failure n with
  | Some e => Rejected e
  | None => Fulfilled
  end.
Proof.
  destruct n; try reflexivity.
  rewrite _parseDir_Dir. unfold top_level_failure. cbn [readdirSync].
  rewrite <- (map_entries_all p dir entries st).
  now destruct (map_entries p dir entries st).
Qed.

Lemma readable_no_failure (es : list (string * node)) :
  readable (Dir es) = true -> first_stat_failure es = None.
Proof.
  cbn [readable]. induction es as [|[entry child] es IH]; [reflexivity|].
  cbn [forallb snd first_stat_failure]. intros H. apply andb_true_iff in H.
  destruct H as [R H]. destruct child; try discriminate R; now apply IH.
Qed.

(** *** What cannot be read leaves no trace *)

Lemma statSync_readable_part (child : node) :
  statSync (readable_part child) = statSync child.
Proof. now destruct child. Qed.

Lemma visit_state_recurse (p : FsParser) (r1 r2 : string -> State -> State * promise)
    (dir entry : string) (c1 c2 : node) (st : State) :
  statSync c1 = statSync c2 ->
  (forall filePath s, fst (r1 filePath s) = fst (r2 filePath s)) ->
  fst (visit p r1 dir entry c1 st) = fst (visit p r2 dir entry c2 st).
Proof.
  intros S R. rewrite !visit_eq, S.
  destruct (statSync c2) as [[| |]|e]; cbn zeta; try reflexivity.
  destruct (dir_passes p (joined dir entry) entry); cbn [fst]; [apply R | reflexivity].
Qed.

Lemma map_entries_readable_part (p : FsParser) (es : list (string * node)) :
  Forall (fun e => forall dir st,
              fst (_parseDir p dir (snd e) st) =
              fst (_parseDir p dir (readable_part (snd e)) st)) es ->
  forall dir st,
    fst (map_entries p dir es st) = fst (map_entries p dir (readable_entries es) st).
Proof.
  induction 1 as [|[entry child] es H _ IH]; intros dir st; [reflexivity|].
  cbn [snd] in H. rewrite map_entries_state.
  destruct child;
    lazymatch goal with
    | |- context [readable_entries ((entry, Unstatable) :: es)] =>
        (* the entry that does not stat is passed over *)
        change (readable_entries ((entry, Unstatable) :: es)) with (readable_entries es);
        rewrite <- IH; now rewrite visit_eq
    | |- context [readable_entries ((entry, ?c) :: es)] =>
        change (readable_entries ((entry, c) :: es))
          with ((entry, readable_part c) :: readable_entries es);
        rewrite map_entries_state, <- IH;
        match goal with
        | |- fst (map_entries _ _ _ ?a) = fst (map_entries _ _ _ ?b) =>
            replace b with a; [reflexivity|]
        end;
        apply visit_state_recurse;
        [now rewrite statSync_readable_part | intros; apply H]
    end.
Qed.

Lemma _parseDir_readable_part (p : FsParser) (n : node) :
  forall dir st,
    fst (_parseDir p dir n st) = fst (_parseDir p dir (readable_part n) st).
Proof.
  induction n as [| | | |es IH] using node_nested_ind; intros dir st; try reflexivity.
  rewrite readable_part_Dir, !_parseDir_state. now apply map_entries_readable_part.
Qed.

(** *** What a denied directory holds is never looked at *)

(** At a denied directory the arrow function stops after the decision:
    the collection is as it was and the log has the records of that
    decision, whatever the directory holds. *)
Lemma visit_denied (p : FsParser) (recurse : string -> State -> State * promise)
    (dir entry : string) (d : node) (st : State) :
  statSync d = Ok IsDirectory ->
  dir_passes p (joined dir entry) entry = false ->
  visit p recurse dir entry d st =
  (snd (doWeProcessDir p (joined dir entry) entry st), Fulfilled).
Proof. intros S D. rewrite visit_eq, S. cbn zeta. now rewrite D. Qed.

Lemma alike_statSync (p : FsParser) (dir : string) (c c' : node) :
  alike p dir c c' -> statSync c = statSync c'.
Proof. now destruct 1. Qed.

Lemma alike_walk (p : FsParser) (dir : string) (n n' : node) :
  alike p dir n n' -> forall st, _parseDir p dir n st = _parseDir p dir n' st.
Proof.
  intros A.
  induction A using alike_mut
    with (P0 := fun dir es es' => forall st, map_entries p dir es st = map_entries p dir es' st);
    intros st; try reflexivity.
  - (* two directories with like listings *)
    rewrite !_parseDir_Dir. now rewrite IHA.
  - (* a denied directory at the head *)
    rewrite path_join_texts in H. injection H as <-.
    rewrite !map_entries_cons, !visit_eq, H0, H1. cbn zeta. rewrite H2.
    now rewrite IHA.
  - (* like children at the head *)
    rewrite path_join_texts in H. injection H as <-.
    rewrite !map_entries_cons, !visit_eq, (alike_statSync A). cbn zeta.
    destruct (statSync c') as [[| |]|e]; try (now rewrite IHA0).
    + destruct (file_passes p (joined dir entry)); now rewrite IHA0.
    + destruct (dir_passes p (joined dir entry) entry); [|now rewrite IHA0].
      now rewrite IHA, IHA0.
Qed.

(** * The claims *)

(** ** Traversal *)

(** C1: for every directory tree that can be read throughout and every
    parser, [parse] returns the collection it has just cleared and filled,
    and that collection holds exactly the files reachable from the start
    path through directories that pass the Directory decision and that
    pass the File decision themselves.  The recursive walks are not awaited,
    but each has done all its appends when it reaches its only [await]; so
    the collection is complete when [parse] reads it. *)
Theorem parse_returns_reachable_files (p : FsParser) (es : list (string * node)) (st : State) :
  readable (Dir es) = true ->
  exists st',
    parse p (Dir es) st = (st', Ok (results st')) /\
    forall f, In f (results st') <-> reachable p (startPath p) es f.
Proof.
  intros R. unfold parse.
  pose proof (_parseDir_promise p (startPath p) (Dir es) (mkState (log st) [])) as P.
  destruct (_parseDir_results p (Dir es) (startPath p) (mkState (log st) [])) as (l & E & C).
  unfold top_level_failure in P. cbn [readdirSync] in P.
  rewrite (readable_no_failure es R) in P.
  destruct (_parseDir p (startPath p) (Dir es) (mkState (log st) [])) as [st' pr].
  cbn [fst snd] in *. subst pr. exists st'. split; [reflexivity|].
  intros f. rewrite E. cbn [results app]. apply C.
Qed.

Lemma parse_returns_reachable_files_witness :
  exists st',
    parse (built scenario_opts) scenario_tree initial = (st', Ok (results st')) /\
    forall f, In f (results st') <->
              reachable (built scenario_opts) "/root"
                [("a.txt", File); ("sub", Dir [("b.md", File)]);
                 ("node_modules", Dir [("c.js", File)])] f.
Proof.
  apply (@parse_returns_reachable_files (built scenario_opts)
           [("a.txt", File); ("sub", Dir [("b.md", File)]);
            ("node_modules", Dir [("c.js", File)])] initial).
  reflexivity.
Defined.

(** Scenario 1 of §8, run. *)
Example scenario_1 :
  snd (parse (built scenario_opts) scenario_tree initial) =
  Ok ["/root/a.txt"; "/root/sub/b.md"].
Proof. reflexivity. Qed.

(** Scenarios 2, 3 and 5 of §8, run. *)
Example scenario_2 :
  snd (parse (built (mkOpts (rules (set_rule no_rules allowFiles (JArr [JStr "README"])))
                       (JBool true) JUndefined))
         (Dir [("README.md", File); ("notes.txt", File)]) initial) =
  Ok ["/root/README.md"].
Proof. reflexivity. Qed.

Example scenario_3 :
  snd (parse (built (set_rule no_rules ignoreExts (JArr [JStr ".txt"])))
         (Dir [("a.txt", File); ("a.md", File)]) initial) =
  Ok ["/root/a.md"].
Proof. reflexivity. Qed.

Example scenario_5 :
  snd (parse (built (set_rule no_rules onlyFiles (JArr [JStr "readme"])))
         (Dir [("readme.md", File); ("readme2.txt", File); ("other.md", File)]) initial) =
  Ok ["/root/readme.md"; "/root/readme2.txt"].
Proof. reflexivity. Qed.

(** C9: whatever a directory that the Directory decision denies holds, the
    traversal does the same: two trees that differ only inside denied
    directories give the same collection, the same log and the same
    outcome.  Nothing below a denied directory reaches the collection or
    the log. *)
Theorem denied_directories_are_pruned (p : FsParser) (root root' : node) (st : State) :
  alike p (startPath p) root root' ->
  parse p root st = parse p root' st.
Proof.
  intros A. unfold parse. now rewrite (alike_walk A).
Qed.

Lemma denied_directories_are_pruned_witness :
  parse (built scenario_opts) scenario_tree initial =
  parse (built scenario_opts)
    (Dir [("a.txt", File); ("sub", Dir [("b.md", File)]); ("node_modules", Dir [])])
    initial.
Proof.
  apply denied_directories_are_pruned.
  apply alike_dir.
  apply alike_cons with (filePath := "/root/a.txt"); [reflexivity | apply alike_same |].
  apply alike_cons with (filePath := "/root/sub"); [reflexivity | apply alike_same |].
  apply alike_denied with (filePath := "/root/node_modules");
    [reflexivity | reflexivity | reflexivity | reflexivity | apply alike_nil].
Defined.

(** The log of scenario 1 has no record for [c.js]. *)
Example scenario_1_log :
  map msg (log (fst (parse (built scenario_opts) scenario_tree initial))) =
  ["Processing file: /a.txt"; "   => allow file by default";
   "Processing directory: /sub"; "   => allow dir by default";
   "Processing file: /sub/b.md"; "   => allow file by default";
   "Processing directory: /node_modules"; "   => ignore dir via: node_modules"].
Proof. reflexivity. Qed.

(** C6, as the code has it: a failing listing or stat is caught nowhere
    and recorded nowhere.  The collection and the log are those of the
    tree without what cannot be read: the other entries are walked.  The
    call rejects with the error when the listing of the start path or the
    stat of one of its own entries fails, and returns the collection
    otherwise, a failure further down being lost with the promise that
    nobody awaits. *)
Theorem failures_are_not_handled (p : FsParser) (root : node) (st : State) :
  fst (parse p root st) = fst (parse p (readable_part root) st) /\
  snd (parse p root st) =
  match top_level_failure root with
  | Some e => Throw e
  | None => Ok (results (fst (parse p root st)))
  end.
Proof.
  unfold parse.
  pose proof (_parseDir_promise p (startPath p) root (mkState (log st) [])) as P.
  pose proof (_parseDir_readable_part p root (startPath p) (mkState (log st) [])) as S.
  destruct (_parseDir p (startPath p) root (mkState (log st) [])) as [st1 pr1].
  destruct (_parseDir p (startPath p) (readable_part root) (mkState (log st) []))
    as [st2 pr2].
  cbn [fst snd] in *. subst st2 pr1. split.
  - destruct (top_level_failure root), pr2; reflexivity.
  - destruct (top_level_failure root); reflexivity.
Qed.

(** C6, as the specification has it, fails: a start directory with a file
    and an entry that cannot be stat-ed.  The file is accepted, no record
    tells of the failure, and [parse] rejects instead of returning. *)
Lemma unstatable_entry_rejects_parse :
  let t := Dir [("a.txt", File); ("gone", Unstatable)] in
  let r := parse (built no_rules) t initial in
  snd r = Throw (FsError "ENOENT") /\
  ~ (exists files, snd r = Ok files) /\
  results (fst r) = ["/root/a.txt"] /\
  map msg (log (fst r)) = ["Processing file: /a.txt"; "   => allow file by default"].
Proof.
  cbv zeta. repeat split.
  intros [files H]. discriminate H.
Qed.

(** ** The decisions *)

(** C2: the File decision of [doWeProcessFile] is a function of the
    basename and the extension, and it is the one of the specification:
    [onlyFiles], when present, decides alone; then [ignoreFilesFirst]
    denies, [allowFiles] allows, [ignoreFiles] denies, [ignoreExts] denies
    on the extension; otherwise the file is denied exactly when
    [ignoreFilesByDefault === true]. *)
Theorem file_decision_precedence (p : FsParser) (filePath : string) (st : State) :
  fst (doWeProcessFile p filePath st) =
  File_decision p (basename filePath) (extname filePath).
Proof. apply doWeProcessFile_decision. Qed.

(** C3: the Directory decision of [doWeProcessDir] is a function of the
    path relative to the root, which starts with the separator, and of the
    entry name, and it is the one of the specification: [allowPaths]
    allows, then [ignorePaths] denies, then [ignoreDirs] denies on the
    entry name; otherwise the directory is denied exactly when
    [ignorePathsByDefault === true]. *)
Theorem directory_decision_precedence (p : FsParser) (filePath entry : string) (st : State) :
  fst (doWeProcessDir p filePath entry st) =
  Directory_decision p (relative p filePath) entry
  /\ starts_with "/" (relative p filePath) = true.
Proof.
  split; [apply doWeProcessDir_decision|].
  unfold relative. destruct (replace_first (absPath p) filePath) as [|c r] eqn:E.
  - reflexivity.
  - destruct (Ascii.eqb_spec c "/") as [->|N]; [reflexivity|].
    assert (K : forall a (s : string),
               a <> "/"%char ->
               match String a s with
               | String "/" _ => String a s
               | _ => (sep ++ String a s)%string
               end = (sep ++ String a s)%string).
    { intros [[|] [|] [|] [|] [|] [|] [|] [|]] s M; try reflexivity. now elim M. }
    now rewrite K.
Qed.

Lemma strict_eq_true_false (v : jsval) : v <> JBool true -> strict_eq_true v = false.
Proof. destruct v as [| |[|]| | | |]; intros N; try reflexivity. now elim N. Qed.

(** C10: the default policies are strict comparisons with [true].  When
    no rule applies to a file and [ignoreFilesByDefault] holds anything but
    the boolean [true], the file is allowed; likewise for a directory and
    [ignorePathsByDefault]. *)
Theorem default_policy_is_strict (p : FsParser) (filePath entry : string) (st : State) :
  (ignoreFilesByDefault (opts p) <> JBool true ->
   present p onlyFiles = false ->
   matches p ignoreFilesFirst (basename filePath) = false ->
   matches p allowFiles (basename filePath) = false ->
   matches p ignoreFiles (basename filePath) = false ->
   matches p ignoreExts (extname filePath) = false ->
   fst (doWeProcessFile p filePath st) = true)
  /\
  (ignorePathsByDefault (opts p) <> JBool true ->
   matches p allowPaths (relative p filePath) = false ->
   matches p ignorePaths (relative p filePath) = false ->
   matches p ignoreDirs entry = false ->
   fst (doWeProcessDir p filePath entry st) = true).
Proof.
  split.
  - intros N O A B C D. rewrite doWeProcessFile_decision. unfold File_decision.
    now rewrite O, A, B, C, D, (strict_eq_true_false N).
  - intros N A B C. rewrite doWeProcessDir_decision. unfold Directory_decision.
    now rewrite A, B, C, (strict_eq_true_false N).
Qed.

Lemma default_policy_is_strict_witness :
  fst (doWeProcessFile (built loose_defaults) "/root/notes.txt" initial) = true /\
  fst (doWeProcessDir (built loose_defaults) "/root/sub" "sub" initial) = true.
Proof.
  destruct (default_policy_is_strict (built loose_defaults) "/root/notes.txt" "sub" initial)
    as [F _].
  destruct (default_policy_is_strict (built loose_defaults) "/root/sub" "sub" initial)
    as [_ D].
  split.
  - apply F; [discriminate | reflexivity ..].
  - apply D; [discriminate | reflexivity ..].
Defined.

(** With the boolean itself the default branch denies. *)
Example default_true_denies :
  fst (doWeProcessFile (built (mkOpts (fun _ => JUndefined) (JBool true) JUndefined))
         "/root/notes.txt" initial) = false.
Proof. reflexivity. Qed.

(** C7: [freeformCheckFile] hands the array [sp] to [path.join], which
    throws a TypeError for an argument that is not a string: the call
    returns neither [true] nor [false], for the path of scenario 4 and for
    every other path, and no decision is consulted. *)
Theorem freeformCheckFile_throws :
  freeformCheckFile (built scenario_opts) "/root/node_modules/c.js" initial
  = (initial, Throw TypeError)
  /\ forall p file st, freeformCheckFile p file st = (st, Throw TypeError).
Proof.
  split; [reflexivity|].
  intros p file st. unfold freeformCheckFile.
  destruct (pop (split_on "/" file)) as [sp x].
  destruct (pop sp) as [sp' entry]. reflexivity.
Qed.

(** ** The pattern compiler *)

Lemma regex_of_texts (sp ap : string) (o : Opts) (p : FsParser) (item : category)
    (frags : list string) :
  new_FsParser sp ap o = Ok p ->
  fragments o item frags ->
  regex p item =
  let ap := accumulate (map (fun f => escape_text (normalized item f)) frags) "" in
  if negb (String.eqb ap "") then Some (mkRegExp ("^(" ++ ap ++ ")") true) else None.
Proof.
  intros N R. pose proof (@new_FsParser_regex sp ap o p N item) as C.
  destruct R as [frags R|t R NE|R]; rewrite R in C.
  - rewrite compile_category_texts in C. now injection C as <-.
  - unfold compile_category in C. cbn [truthy] in C.
    destruct (String.eqb_spec t "") as [->|_]; [congruence|]. cbn [negb] in C.
    change (makeArray (JStr t)) with (map JStr [t]) in C.
    rewrite sanitizer_of_texts in C. now injection C as <-.
  - now injection C as <-.
Qed.

Lemma sanitizer_of_fragments (o : Opts) (item : category) (frags : list string) :
  fragments o item frags ->
  sanitizer_of item (map JStr frags) =
  Ok (accumulate (map (fun f => escape_text (normalized item f)) frags) "").
Proof. intros _. apply sanitizer_of_texts. Qed.

Lemma alternatives_of_escaped (t : string) :
  alternatives_of ("^(" ++ escape_text t ++ ")") = Some [t].
Proof.
  cbn [alternatives_of append]. rewrite disjunction_escaped. cbn. now rewrite append_nil_r.
Qed.

(** C5: a text fragment is brought to the normal form of its category (a
    dot in front for [ignoreExts] when there is none, a leading separator
    off for the filename categories, a separator in front for the path
    categories when there is none) and then escaped; the matcher of the
    category is built from these escaped texts; and an escaped text, read
    as a pattern, stands for the text itself. *)
Theorem fragments_normalized_then_escaped (sp ap : string) (o : Opts) (p : FsParser)
    (item : category) (frags : list string) :
  new_FsParser sp ap o = Ok p ->
  fragments o item frags ->
  let escaped := map (fun f => escape_text (normalized item f)) frags in
  sanitizer_of item (map JStr frags) = Ok (accumulate escaped "")
  /\ regex p item =
     (if negb (String.eqb (accumulate escaped "") "")
      then Some (mkRegExp ("^(" ++ accumulate escaped "" ++ ")") true)
      else None)
  /\ forall f, In f frags ->
       alternatives_of ("^(" ++ escape_text (normalized item f) ++ ")")
       = Some [normalized item f].
Proof.
  intros N R. cbv zeta. split; [apply (sanitizer_of_fragments R)|]. split.
  - apply (@regex_of_texts sp ap o p item frags N R).
  - intros f _. apply alternatives_of_escaped.
Qed.

Lemma fragments_normalized_then_escaped_witness :
  regex (built mixed_opts) ignoreExts = Some (mkRegExp "^(\.txt|\.md)" true) /\
  regex (built mixed_opts) ignoreDirs = Some (mkRegExp "^(build)" true) /\
  regex (built mixed_opts) allowPaths = Some (mkRegExp "^(\/docs)" true).
Proof.
  destruct (@fragments_normalized_then_escaped "/root" "/root" mixed_opts (built mixed_opts)
              ignoreExts ["txt"; ".md"] eq_refl
              (@fragments_list mixed_opts ignoreExts ["txt"; ".md"] eq_refl))
    as (_ & E & _).
  destruct (@fragments_normalized_then_escaped "/root" "/root" mixed_opts (built mixed_opts)
              ignoreDirs ["/build"] eq_refl
              (@fragments_list mixed_opts ignoreDirs ["/build"] eq_refl))
    as (_ & D & _).
  destruct (@fragments_normalized_then_escaped "/root" "/root" mixed_opts (built mixed_opts)
              allowPaths ["docs"] eq_refl
              (@fragments_text mixed_opts allowPaths "docs" eq_refl ltac:(discriminate)))
    as (_ & A & _).
  repeat split; assumption.
Defined.

Lemma normalized_escaped_nonempty (item : category) (frags : list string) :
  Forall (fun f => normalized item f <> "") frags ->
  Forall (fun e => e <> "") (map (fun f => escape_text (normalized item f)) frags).
Proof.
  induction 1 as [|f frags N _ IH]; constructor; [|assumption].
  intros E. now apply escape_text_nil in E.
Qed.


(** Only a filename category can have a fragment with an empty normal
    form: the empty text and the bare separator. *)
Lemma normalized_empty (item : category) (f : string) :
  normalized item f = "" ->
  sanitizer_of item = sanitizeFileRegex /\ (f = "" \/ f = "/").
Proof.
  destruct item; cbn [normalized sanitizer_of];
    destruct f as [|c f]; cbn [starts_with drop];
    try destruct (Ascii.eqb_spec c "/") as [->|_];
    try destruct (Ascii.eqb_spec c ".") as [->|_];
    cbn; intros H; try discriminate H; subst; auto.
Qed.




(** An empty fragment at the head of a list is lost in the loop of the
    sanitizer: [["", "a"]] gives [^(a)], which does not match the empty
    basename that [^(|a)] would match; behind a fragment that is not
    empty it is kept, and [["a", ""]] gives [^(a|)]. *)
Example leading_empty_fragment_is_dropped :
  regex (built leading_empty_opts) allowFiles = Some (mkRegExp "^(a)" true) /\
  claimed_matcher allowFiles [""; "a"] = mkRegExp "^(|a)" true /\
  consult (built leading_empty_opts) allowFiles "" = None /\
  exec (claimed_matcher allowFiles [""; "a"]) "" = Some "" /\
  regex (built leading_empty_opts) ignoreFiles = Some (claimed_matcher ignoreFiles ["a"; ""]).
Proof. repeat split. Qed.

(** C8 at [{ignoreExts: [5]}]: the number is turned into text by the
    concatenation with the dot before [regexEscape] sees it, and the
    constructor returns a parser whose matcher is [^(\.5)]. *)
Theorem number_fragment_compiles :
  let o := set_rule no_rules ignoreExts (JArr [JNum 5]) in
  new_FsParser "/root" "/root" o = Ok (built o) /\
  regex (built o) ignoreExts = Some (mkRegExp "^(\.5)" true) /\
  consult (built o) ignoreExts ".5" = Some ".5".
Proof. cbv zeta. repeat split. Qed.

(** The same number in a filename category is refused by [regexEscape]. *)
Example number_fragment_refused :
  new_FsParser "/root" "/root" (set_rule no_rules ignoreDirs (JArr [JNum 5])) =
  Throw (GAError "regexEscape requires a string, we got a number.").
Proof. reflexivity. Qed.

(** The constructor does not throw on text. *)
Lemma text_only_compiles (sp ap : string) (o : Opts) :
  text_only o -> exists p, new_FsParser sp ap o = Ok p.
Proof.
  intros T. apply new_FsParser_ok. intros item.
  destruct (T item) as [E|[[t E]|[frags E]]]; rewrite E.
  - now eexists.
  - unfold compile_category. destruct (truthy (JStr t)); [|now eexists].
    change (makeArray (JStr t)) with (map JStr [t]).
    rewrite sanitizer_of_texts. now eexists.
  - rewrite compile_category_texts. now eexists.
Qed.

(** * Further properties *)

(** ** [regexEscape] and the sanitizers *)

Lemma escape_text_length (t : string) :
  String.length t <= String.length (escape_text t) <= 2 * String.length t.
Proof.
  induction t as [|c t IH]; cbn [escape_text String.length]; [lia|].
  destruct (in_class c escaped_class); cbn [String.length]; lia.
Qed.

(** X1: [regexEscape] leaves a text as it is exactly when the text has no
    character of the escaped class; it never shortens a text and at most
    doubles its length. *)
Theorem regexEscape_identity (t : string) :
  (regexEscape (JStr t) = Ok t <-> has_special t = false) /\
  String.length t <= String.length (escape_text t) <= 2 * String.length t.
Proof.
  split; [|apply escape_text_length].
  cbn [regexEscape]. induction t as [|c t IH]; cbn [escape_text has_special].
  - split; reflexivity.
  - destruct (in_class c escaped_class) eqn:E; cbn [orb].
    + split; [|discriminate]. intros [= K1 K2]. exfalso.
      pose proof (escape_text_length t) as L.
      apply (f_equal String.length) in K2. cbn [String.length] in K2. lia.
    + rewrite <- IH. split; [intros [= K]; now rewrite K | intros [= K]; now rewrite K].
Qed.

(** X2: [regexEscape] is injective on texts: two fragments with the same
    escaped form are the same fragment. *)
Theorem regexEscape_injective (a b : string) :
  regexEscape (JStr a) = regexEscape (JStr b) -> a = b.
Proof.
  cbn [regexEscape]. intros [= E].
  pose proof (alternatives_of_escaped a) as A.
  rewrite E, alternatives_of_escaped in A. now injection A.
Qed.

Lemma regexEscape_injective_witness : "a.b" = "a.b".
Proof. apply (@regexEscape_injective "a.b" "a.b"). reflexivity. Defined.

Lemma forEach_app {A} (body : A -> jsval -> result A) (l1 l2 : list jsval) (ap : A) :
  forEach body (l1 ++ l2) ap = (let! ap' := forEach body l1 ap in forEach body l2 ap').
Proof.
  revert ap. induction l1 as [|p l1 IH]; intros ap; [reflexivity|].
  cbn [app forEach]. destruct (body ap p); cbn [bind]; [apply IH | reflexivity].
Qed.

Lemma file_body_throws (ap : string) (p : jsval) :
  is_text p = false ->
  exists e,
    (let! p0 := index0 p in
     let! p' := (if loose_eq_text p0 sep then substring1 p else Ok p) in
     append_escaped ap p') = Throw e.
Proof.
  intros T. destruct p as [| |b|n|s|items|]; try discriminate T;
    try (eexists; reflexivity).
  cbn [index0]. destruct items as [|x items]; cbn [bind].
  - eexists; reflexivity.
  - destruct (loose_eq_text x sep); eexists; reflexivity.
Qed.

(** X3: [sanitizeFileRegex] returns exactly on the lists of texts: a list
    with any fragment that is not a text makes it throw, whatever comes
    before or after that fragment. *)
Theorem sanitizeFileRegex_returns_iff_texts (s : list jsval) :
  (exists ap, sanitizeFileRegex s = Ok ap) <-> forallb is_text s = true.
Proof.
  split.
  - intros [ap H]. unfold sanitizeFileRegex in H.
    match type of H with
    | forEach ?b _ _ = _ => set (body := b) in H
    end.
    revert H. generalize ""%string as ap0.
    induction s as [|p s IH]; intros ap0 H; [reflexivity|].
    cbn [forallb forEach] in *. destruct (is_text p) eqn:T.
    + cbn [andb]. destruct (body ap0 p) as [ap'|e]; cbn [bind] in H; [|discriminate H].
      now apply (IH ap').
    + exfalso. destruct (file_body_throws ap0 p T) as [e K].
      unfold body in H. rewrite K in H. discriminate H.
  - intros T.
    assert (M : exists l, s = map JStr l).
    { induction s as [|p s IH]; [now exists []|].
      cbn [forallb] in T. apply andb_true_iff in T. destruct T as [Tp Ts].
      destruct (IH Ts) as [l ->]. destruct p as [| | | |t| |]; try discriminate Tp.
      now exists (t :: l). }
    destruct M as [l ->]. rewrite sanitizeFileRegex_texts. now eexists.
Qed.

Lemma forEach_values (body : string -> jsval -> result string) (ok : jsval -> bool)
    (text : jsval -> string) :
  (forall ap v, ok v = true -> body ap v = append_escaped ap (JStr (text v))) ->
  forall s ap,
    forallb ok s = true ->
    forEach body s ap = Ok (accumulate (map (fun v => escape_text (text v)) s) ap).
Proof.
  intros B. unfold accumulate.
  induction s as [|v s IH]; intros ap H; [reflexivity|].
  cbn [forallb] in H. apply andb_true_iff in H. destruct H as [Hv Hs].
  cbn [map forEach fold_left]. rewrite (B ap v Hv), append_escaped_text. cbn [bind].
  now apply IH.
Qed.

(** X4: [sanitizeExtRegex] and [sanitizePathRegex] never refuse a boolean
    or a number that is a safe integer: the concatenation with the dot or
    the separator has made a text of it before [regexEscape] looks, and the
    fragment counts as that text ([.5] for [5], [.true] for [true]). *)
Theorem coerced_fragments_pass (s : list jsval) :
  forallb (fun v => is_text v || is_coercible v) s = true ->
  sanitizeExtRegex s =
    Ok (accumulate
          (map (fun v => escape_text
                           (match v with
                            | JStr t => normalized ignoreExts t
                            | _ => "." ++ ToString v
                            end)) s) "")
  /\ sanitizePathRegex s =
    Ok (accumulate
          (map (fun v => escape_text
                           (match v with
                            | JStr t => normalized allowPaths t
                            | _ => sep ++ ToString v
                            end)) s) "").
Proof.
  intros H. split.
  - apply (forEach_values _ (fun v => is_text v || is_coercible v)
             (fun v => match v with
                       | JStr t => normalized ignoreExts t
                       | _ => "." ++ ToString v
                       end)); [|assumption].
    intros ap v Hv. destruct v as [| |b|n|t|items|]; try discriminate Hv; try reflexivity.
    destruct t as [|c t]; [reflexivity|].
    cbn [index0 bind loose_eq_text normalized starts_with ToString].
    rewrite one_char_eqb. destruct (Ascii.eqb c "."); reflexivity.
  - apply (forEach_values _ (fun v => is_text v || is_coercible v)
             (fun v => match v with
                       | JStr t => normalized allowPaths t
                       | _ => sep ++ ToString v
                       end)); [|assumption].
    intros ap v Hv. destruct v as [| |b|n|t|items|]; try discriminate Hv; try reflexivity.
    destruct t as [|c t]; [reflexivity|].
    cbn [index0 bind loose_eq_text normalized starts_with ToString].
    unfold sep. rewrite one_char_eqb. destruct (Ascii.eqb c "/"); reflexivity.
Qed.

Lemma coerced_fragments_pass_witness :
  sanitizeExtRegex [JNum 5; JBool true; JStr "md"] = Ok "\.5|\.true|\.md".
Proof.
  destruct (@coerced_fragments_pass [JNum 5; JBool true; JStr "md"] eq_refl) as [E _].
  exact E.
Defined.

(** ** The matchers of a parser *)

Lemma accumulate_drop (es : list string) :
  accumulate es "" = String.concat "|" (drop_leading_empty es).
Proof.
  induction es as [|e es IH]; [reflexivity|].
  cbn [drop_leading_empty]. destruct (String.eqb_spec e "") as [->|N].
  - exact IH.
  - rewrite concat_cons. unfold accumulate. cbn [fold_left String.eqb negb append].
    now apply accumulate_from.
Qed.

Lemma drop_leading_empty_escape (l : list string) :
  drop_leading_empty (map escape_text l) = map escape_text (drop_leading_empty l).
Proof.
  induction l as [|t l IH]; [reflexivity|]. cbn [map drop_leading_empty].
  destruct (String.eqb_spec t "") as [->|N]; [exact IH|].
  destruct (String.eqb_spec (escape_text t) "") as [E|_]; [|reflexivity].
  now apply escape_text_nil in E.
Qed.

Lemma drop_leading_empty_head (l : list string) (e : string) (rest : list string) :
  drop_leading_empty l = e :: rest -> e <> "".
Proof.
  induction l as [|t l IH]; [discriminate|]. cbn [drop_leading_empty].
  destruct (String.eqb_spec t "") as [->|N]; [exact IH|]. now intros [= <- _].
Qed.

Lemma concat_nonempty (e : string) (rest : list string) :
  e <> "" -> String.concat "|" (e :: rest) <> "".
Proof.
  intros N K. rewrite concat_cons in K. apply append_eq_nil in K. now destruct K.
Qed.

Lemma regex_of_any_texts (sp ap : string) (o : Opts) (p : FsParser)
    (item : category) (frags : list string) :
  new_FsParser sp ap o = Ok p ->
  fragments o item frags ->
  let alts := drop_leading_empty (map (normalized item) frags) in
  regex p item =
    match alts with
    | [] => None
    | _ => Some (mkRegExp ("^(" ++ String.concat "|" (map escape_text alts) ++ ")") true)
    end
  /\ forall input,
       consult p item input <> None <->
       exists f, In f alts /\ begins_with f input.
Proof.
  intros N R. cbv zeta.
  pose proof (@regex_of_texts sp ap o p item frags N R) as C. cbv zeta in C.
  rewrite <- (map_map (normalized item) escape_text) in C.
  rewrite accumulate_drop, drop_leading_empty_escape in C.
  destruct (drop_leading_empty (map (normalized item) frags)) as [|e rest] eqn:D.
  - cbn in C. split; [assumption|]. intros input. unfold consult. rewrite C.
    split; [congruence | intros (f & [] & _)].
  - pose proof (drop_leading_empty_head _ D) as NE.
    assert (M : regex p item =
                Some (mkRegExp ("^(" ++ String.concat "|" (map escape_text (e :: rest)) ++ ")")
                        true)).
    { rewrite C.
      destruct (String.eqb_spec (String.concat "|" (map escape_text (e :: rest))) "")
        as [K|_]; [|reflexivity].
      exfalso. cbn [map] in K. apply concat_nonempty in K; [assumption|].
      intros E. now apply escape_text_nil in E. }
    split; [assumption|]. intros input. unfold consult, exec. rewrite M.
    cbn [source ignoreCase alternatives_of append].
    rewrite disjunction_joined by discriminate. rewrite first_match_some.
    split; intros (f & I & B); exists f; (split; [assumption|]);
      now apply match_literal_begins.
Qed.

(** X5: the matcher of a category, for every list of text fragments.  The
    empty normal forms at the head of the list are lost in the loop of the
    sanitizer; what is left makes the alternatives.  The category has a
    matcher exactly when something is left; the matcher matches every text
    that begins, up to the case of the letters from [a] to [z], with one
    of the alternatives; and when the fragments are made of code units
    below 128 it matches no other text. *)
Theorem matcher_of_any_texts (sp ap : string) (o : Opts) (p : FsParser)
    (item : category) (frags : list string) :
  new_FsParser sp ap o = Ok p ->
  fragments o item frags ->
  let alts := drop_leading_empty (map (normalized item) frags) in
  regex p item =
    match alts with
    | [] => None
    | _ => Some (mkRegExp ("^(" ++ String.concat "|" (map escape_text alts) ++ ")") true)
    end
  /\ (forall input,
       (exists f, In f alts /\ begins_with f input) -> consult p item input <> None)
  /\ (forallb ascii_text frags = true ->
      forall input,
        consult p item input <> None -> exists f, In f alts /\ begins_with f input).
Proof.
  intros N R alts. destruct (@regex_of_any_texts sp ap o p item frags N R) as [M B].
  split; [exact M|]. split.
  - intros input H. now apply B.
  - intros _ input H. now apply B.
Qed.

Lemma matcher_of_any_texts_witness :
  regex (built leading_empty_opts) allowFiles = Some (mkRegExp "^(a)" true) /\
  regex (built leading_empty_opts) ignoreFiles = Some (mkRegExp "^(a|)" true) /\
  consult (built leading_empty_opts) allowFiles "About.md" <> None /\
  (consult (built leading_empty_opts) allowFiles "index.md" <> None ->
   exists f, In f ["a"] /\ begins_with f "index.md").
Proof.
  destruct (@matcher_of_any_texts "/root" "/root" leading_empty_opts
              (built leading_empty_opts) allowFiles [""; "a"] eq_refl
              (@fragments_list leading_empty_opts allowFiles [""; "a"] eq_refl))
    as (A & F & O).
  destruct (@matcher_of_any_texts "/root" "/root" leading_empty_opts
              (built leading_empty_opts) ignoreFiles ["a"; ""] eq_refl
              (@fragments_list leading_empty_opts ignoreFiles ["a"; ""] eq_refl)) as [B _].
  split; [exact A|]. split; [exact B|].
  split; [apply F; exists "a"; split; [now left | now exists "A", "bout.md"]|].
  exact (O eq_refl "index.md").
Defined.

Lemma normalized_nonempty (item : category) (f : string) :
  sanitizer_of item <> sanitizeFileRegex -> normalized item f <> "".
Proof.
  intros S E. apply normalized_empty in E. now destruct E.
Qed.

(** X6: a path category or the extension category has a matcher exactly
    when its list of text fragments is not empty: the normal form of a
    fragment of these categories starts with the separator or the dot and
    is never empty. *)
Theorem path_and_ext_matcher_present (sp ap : string) (o : Opts) (p : FsParser)
    (item : category) (frags : list string) :
  new_FsParser sp ap o = Ok p ->
  fragments o item frags ->
  item = allowPaths \/ item = ignorePaths \/ item = ignoreExts ->
  (regex p item <> None <-> frags <> []).
Proof.
  intros N R K.
  destruct (@regex_of_any_texts sp ap o p item frags N R) as [M _].
  assert (D : drop_leading_empty (map (normalized item) frags) = map (normalized item) frags).
  { destruct frags as [|f frags]; [reflexivity|]. cbn [map drop_leading_empty].
    destruct (String.eqb_spec (normalized item f) "") as [E|_]; [|reflexivity].
    exfalso. destruct K as [-> | [-> | ->]]; destruct f as [|c f]; cbn in E;
      try discriminate E;
      try (destruct (Ascii.eqb c "/"); discriminate E);
      destruct (Ascii.eqb c "."); discriminate E. }
  rewrite D in M. rewrite M. destruct frags; cbn [map]; split; congruence.
Qed.

Lemma path_and_ext_matcher_present_witness :
  regex (built mixed_opts) ignoreExts <> None <-> ["txt"; ".md"] <> [].
Proof.
  apply (@path_and_ext_matcher_present "/root" "/root" mixed_opts (built mixed_opts)
           ignoreExts ["txt"; ".md"] eq_refl
           (@fragments_list mixed_opts ignoreExts ["txt"; ".md"] eq_refl)).
  right; right; reflexivity.
Defined.

Lemma regex_shape (sp ap : string) (o : Opts) (p : FsParser)
    (item : category) (re : RegExp) :
  new_FsParser sp ap o = Ok p ->
  regex p item = Some re ->
  exists body, body <> "" /\ re = mkRegExp ("^(" ++ body ++ ")") true.
Proof.
  intros N R. pose proof (@new_FsParser_regex sp ap o p N item) as C.
  rewrite R in C. unfold compile_category in C.
  destruct (truthy (rules o item)); [|discriminate C].
  destruct (sanitizer_of item (makeArray (rules o item))) as [body|e]; cbn [bind] in C;
    [|discriminate C].
  destruct (String.eqb body "") eqn:Q; cbn [negb] in C; [discriminate C|].
  apply String.eqb_neq in Q. injection C as <-. now exists body.
Qed.

(** X7: whatever the options hold, a matcher that the constructor has
    built is never the empty group: it is [^(] + a text that is not empty
    + [)], and it ignores case. *)
Theorem matcher_never_empty (sp ap : string) (o : Opts) (p : FsParser)
    (item : category) (re : RegExp) :
  new_FsParser sp ap o = Ok p ->
  regex p item = Some re ->
  exists body, body <> "" /\ re = mkRegExp ("^(" ++ body ++ ")") true.
Proof. apply regex_shape. Qed.

Lemma matcher_never_empty_witness :
  exists body, body <> "" /\ mkRegExp "^(\/docs)" true = mkRegExp ("^(" ++ body ++ ")") true.
Proof.
  apply (@matcher_never_empty "/root" "/root" docs_opts (built docs_opts) allowPaths
           (mkRegExp "^(\/docs)" true) eq_refl eq_refl).
Defined.

(** ** Matching *)

Lemma match_literal_longer (ic : bool) (lit : string) :
  forall input m more,
    match_literal ic lit input = Some m ->
    match_literal ic lit (input ++ more) = Some m.
Proof.
  induction lit as [|a lit IH]; intros input m more H; [exact H|].
  destruct input as [|b input]; [discriminate H|].
  cbn [match_literal append] in *.
  destruct (char_matches ic a b); [|discriminate H].
  destruct (match_literal ic lit input) as [m'|] eqn:E; [|discriminate H].
  now rewrite (IH _ _ more E).
Qed.

(** X8: matching is by prefix.  A text that a category matches still
    matches with anything appended, and the matched text that [exec]
    reports is a piece of the tested text itself, at its start. *)
Theorem match_is_by_prefix (p : FsParser) (item : category) (input m more : string) :
  consult p item input = Some m ->
  (exists rest, input = m ++ rest) /\
  consult p item (input ++ more) <> None.
Proof.
  unfold consult, exec. destruct (regex p item) as [re|]; [|discriminate].
  destruct (alternatives_of (source re)) as [alts|]; [|discriminate].
  intros H. split.
  - clear more. induction alts as [|a alts IH]; [discriminate H|].
    cbn [first_match] in H. destruct (match_literal (ignoreCase re) a input) as [x|] eqn:E.
    + injection H as ->. destruct (match_literal_sound _ _ _ E) as (rest & -> & _).
      now exists rest.
    + now apply IH.
  - apply first_match_some.
    assert (S : first_match (ignoreCase re) alts input <> None) by congruence.
    apply first_match_some in S. destruct S as (a & I & M).
    exists a. split; [assumption|].
    destruct (match_literal (ignoreCase re) a input) as [x|] eqn:E; [|congruence].
    now rewrite (match_literal_longer _ _ _ more E).
Qed.

Lemma match_is_by_prefix_witness :
  (exists rest, "/docs/readme.md" = "/docs" ++ rest) /\
  consult (built docs_opts) allowPaths ("/docs/readme.md" ++ ".bak") <> None.
Proof.
  apply (@match_is_by_prefix (built docs_opts) allowPaths "/docs/readme.md" "/docs" ".bak").
  reflexivity.
Defined.

Lemma match_literal_fold (lit : string) :
  forall input input',
    fold_case input = fold_case input' ->
    match_literal true lit input <> None ->
    match_literal true lit input' <> None.
Proof.
  induction lit as [|a lit IH]; intros input input' F H; [discriminate|].
  destruct input as [|b input]; [now elim H|].
  destruct input' as [|b' input']; [discriminate F|].
  cbn [fold_case] in F. injection F as Fc F.
  cbn [match_literal char_matches] in *. rewrite <- Fc.
  destruct (Ascii.eqb (canonicalize a) (canonicalize b)); [|now elim H].
  destruct (match_literal true lit input) as [x|] eqn:E; [|now elim H].
  assert (K : match_literal true lit input' <> None) by (apply (IH input); congruence).
  destruct (match_literal true lit input'); [discriminate | now elim K].
Qed.

(** X9: matching ignores the case of the letters from [a] to [z] of the
    tested text, in every category and whatever the options are: for a
    parser that the constructor has built and a category whose pattern is
    made of code units below 128, two texts that differ only in the case
    of these letters are matched alike. *)
Theorem match_ignores_case (sp ap : string) (o : Opts) (p : FsParser)
    (item : category) (input input' : string) :
  new_FsParser sp ap o = Ok p ->
  ascii_pattern p item = true ->
  fold_case input = fold_case input' ->
  (consult p item input <> None <-> consult p item input' <> None).
Proof.
  intros N _ F.
  assert (G : forall x y, fold_case x = fold_case y ->
                          consult p item x <> None -> consult p item y <> None).
  { intros x y Fxy. unfold consult, exec.
    destruct (regex p item) as [re|] eqn:R; [|congruence].
    destruct (@regex_shape sp ap o p item re N R) as (body & _ & ->).
    cbn [source ignoreCase].
    destruct (alternatives_of ("^(" ++ body ++ ")")) as [alts|]; [|congruence].
    rewrite !first_match_some. intros (a & I & M). exists a. split; [assumption|].
    now apply (match_literal_fold a x y). }
  split; apply G; [assumption | now symmetry].
Qed.

Lemma match_ignores_case_witness :
  consult (built docs_opts) allowFiles "README.md" <> None <->
  consult (built docs_opts) allowFiles "ReadMe.MD" <> None.
Proof.
  apply (@match_ignores_case "/root" "/root" docs_opts (built docs_opts) allowFiles
           "README.md" "ReadMe.MD" eq_refl eq_refl eq_refl).
Defined.

(** ** The constructor *)

Lemma configure_item_opts san item o r o' r' :
  configure_item san item (o, r) = Ok (o', r') ->
  o' = if truthy (rules o item)
       then set_rule o item (JArr (makeArray (rules o item)))
       else o.
Proof.
  unfold configure_item. destruct (truthy (rules o item)); [|now intros [= <- _]].
  destruct (san (makeArray (rules o item))) as [ap|e]; cbn [bind]; [|discriminate].
  destruct (negb (String.eqb ap "")); now intros [= <- _].
Qed.

Lemma run_turns_opts (turns : list ((list jsval -> result string) * category)) :
  NoDup (map snd turns) ->
  forall o r o' r',
    run_turns turns (o, r) = Ok (o', r') ->
    ignoreFilesByDefault o' = ignoreFilesByDefault o /\
    ignorePathsByDefault o' = ignorePathsByDefault o /\
    forall item,
      rules o' item =
      if existsb (category_eqb item) (map snd turns) && truthy (rules o item)
      then JArr (makeArray (rules o item))
      else rules o item.
Proof.
  induction turns as [|[san item0] turns IH]; intros ND o r o' r' H.
  - injection H as <- <-. now repeat split.
  - inversion ND as [|? ? NI ND']; subst. cbn [run_turns] in H.
    destruct (configure_item san item0 (o, r)) as [[o1 r1]|] eqn:E; cbn [bind] in H;
      [|discriminate H].
    apply configure_item_opts in E.
    destruct (IH ND' o1 r1 o' r' H) as (F & P & R).
    assert (D : ignoreFilesByDefault o1 = ignoreFilesByDefault o /\
                ignorePathsByDefault o1 = ignorePathsByDefault o).
    { rewrite E. now destruct (truthy (rules o item0)). }
    destruct D as [D1 D2]. split; [congruence|]. split; [congruence|].
    intros item. rewrite R. cbn [map snd existsb].
    destruct (category_eqb item item0) eqn:Q.
    + assert (item = item0) by (destruct item, item0; congruence || discriminate Q).
      subst item.
      assert (X : existsb (category_eqb item0) (map snd turns) = false).
      { destruct (existsb (category_eqb item0) (map snd turns)) eqn:X; [|reflexivity].
        exfalso. apply existsb_exists in X. destruct X as (c & I & Qc).
        assert (item0 = c) by (destruct item0, c; congruence || discriminate Qc).
        now subst c. }
      rewrite X. cbn [andb orb]. rewrite E.
      destruct (truthy (rules o item0)); [|reflexivity].
      unfold set_rule. cbn [rules]. now rewrite category_eqb_refl.
    + cbn [orb].
      assert (X : rules o1 item = rules o item).
      { rewrite E. destruct (truthy (rules o item0)); [|reflexivity].
        unfold set_rule. cbn [rules]. now rewrite Q. }
      now rewrite X.
Qed.

Lemma all_turns_NoDup : NoDup (map snd all_turns).
Proof.
  cbn [map snd all_turns].
  repeat (constructor; [cbn [In]; intuition discriminate|]). constructor.
Qed.

Lemma all_turns_complete (item : category) :
  existsb (category_eqb item) (map snd all_turns) = true.
Proof. now destruct item. Qed.

Lemma new_FsParser_fields (sp ap : string) (o : Opts) (p : FsParser) :
  new_FsParser sp ap o = Ok p ->
  startPath p = sp /\ absPath p = ap /\
  ignoreFilesByDefault (opts p) = ignoreFilesByDefault o /\
  ignorePathsByDefault (opts p) = ignorePathsByDefault o /\
  forall item,
    rules (opts p) item =
    if truthy (rules o item) then JArr (makeArray (rules o item)) else rules o item.
Proof.
  unfold new_FsParser. rewrite _configureRegex_run.
  destruct (run_turns all_turns (o, fun _ : category => None)) as [[o' r']|] eqn:E;
    cbn [bind]; [|discriminate].
  intros [= <-]. cbn [startPath absPath opts].
  destruct (@run_turns_opts all_turns all_turns_NoDup o _ o' r' E) as (F & P & R).
  repeat split; try assumption.
  intros item. rewrite R, all_turns_complete. reflexivity.
Qed.

(** X10: the constructor rewrites the options it is given: a category
    whose value is truthy holds an array afterwards (the value itself when
    it was one, the one-element array of the value otherwise), the other
    categories and the two default policies are as they were, and the two
    paths are stored as given. *)
Theorem options_are_normalized (sp ap : string) (o : Opts) (p : FsParser) :
  new_FsParser sp ap o = Ok p ->
  startPath p = sp /\ absPath p = ap /\
  ignoreFilesByDefault (opts p) = ignoreFilesByDefault o /\
  ignorePathsByDefault (opts p) = ignorePathsByDefault o /\
  forall item,
    rules (opts p) item =
    if truthy (rules o item) then JArr (makeArray (rules o item)) else rules o item.
Proof. apply new_FsParser_fields. Qed.

Lemma options_are_normalized_witness :
  rules (opts (built docs_opts)) allowFiles = JArr [JStr "readme"] /\
  rules (opts (built docs_opts)) ignoreDirs = JUndefined.
Proof.
  destruct (@options_are_normalized "/root" "/root" docs_opts (built docs_opts) eq_refl)
    as (_ & _ & _ & _ & R).
  split; [apply (R allowFiles) | apply (R ignoreDirs)].
Defined.

Lemma compile_category_normalized (item : category) (v : jsval) :
  compile_category item (if truthy v then JArr (makeArray v) else v) =
  compile_category item v.
Proof.
  unfold compile_category. destruct (truthy v) eqn:T; [|now rewrite T].
  reflexivity.
Qed.

(** X11: the constructor can be run again on the options it has
    rewritten, and gives the same matchers and the same options: a second
    parser built from the options of a first one filters alike. *)
Theorem constructor_is_idempotent (sp ap : string) (o : Opts) (p : FsParser) :
  new_FsParser sp ap o = Ok p ->
  exists p',
    new_FsParser sp ap (opts p) = Ok p' /\
    forall item,
      regex p' item = regex p item /\
      rules (opts p') item = rules (opts p) item.
Proof.
  intros N. destruct (@new_FsParser_fields sp ap o p N) as (_ & _ & _ & _ & R).
  assert (C : forall item, compile_category item (rules (opts p) item) = Ok (regex p item)).
  { intros item. rewrite R, compile_category_normalized.
    apply (@new_FsParser_regex sp ap o p N). }
  destruct (@new_FsParser_ok sp ap (opts p)) as [p' N'].
  { intros item. exists (regex p item). apply C. }
  exists p'. split; [assumption|]. intros item. split.
  - pose proof (@new_FsParser_regex sp ap (opts p) p' N' item) as C'.
    rewrite C in C'. now injection C'.
  - destruct (@new_FsParser_fields sp ap (opts p) p' N') as (_ & _ & _ & _ & R').
    rewrite R', R. destruct (truthy (rules o item)) eqn:T; [reflexivity|].
    now rewrite T.
Qed.

Lemma constructor_is_idempotent_witness :
  exists p',
    new_FsParser "/root" "/root" (opts (built docs_opts)) = Ok p' /\
    forall item,
      regex p' item = regex (built docs_opts) item /\
      rules (opts p') item = rules (opts (built docs_opts)) item.
Proof.
  apply (@constructor_is_idempotent "/root" "/root" docs_opts (built docs_opts)).
  reflexivity.
Defined.

(** X12: a category whose sanitizer throws on the array of its value makes
    the constructor throw, whatever the other categories hold: no parser
    is built from options with such a category. *)
Theorem bad_category_makes_constructor_throw (sp ap : string) (o : Opts)
    (item : category) (e : error) :
  truthy (rules o item) = true ->
  sanitizer_of item (makeArray (rules o item)) = Throw e ->
  exists e', new_FsParser sp ap o = Throw e'.
Proof.
  intros T S. destruct (new_FsParser sp ap o) as [p|e'] eqn:N; [|now exists e'].
  pose proof (@new_FsParser_regex sp ap o p N item) as C.
  unfold compile_category in C. rewrite T, S in C. discriminate C.
Qed.

Lemma bad_category_makes_constructor_throw_witness :
  exists e', new_FsParser "/root" "/root" number_dir_opts = Throw e'.
Proof.
  apply (@bad_category_makes_constructor_throw "/root" "/root" number_dir_opts
           ignoreDirs (GAError "regexEscape requires a string, we got a number.")
           eq_refl eq_refl).
Defined.

(** ** The relative path and the log of a decision *)

Lemma prefix_append (pat rest : string) : String.prefix pat (pat ++ rest) = true.
Proof.
  induction pat as [|c pat IH]; cbn [append String.prefix]; [now destruct rest|].
  destruct (ascii_dec c c) as [_|N]; [exact IH | now elim N].
Qed.

Lemma drop_append (pat rest : string) : drop (String.length pat) (pat ++ rest) = rest.
Proof. induction pat as [|c pat IH]; [now destruct rest | exact IH]. Qed.

Lemma replace_first_prefix (pat rest : string) : replace_first pat (pat ++ rest) = rest.
Proof.
  destruct (pat ++ rest) as [|c s] eqn:E; cbn [replace_first]; rewrite <- E;
    now rewrite prefix_append, drop_append.
Qed.

Lemma lead_separator (s : string) :
  match s with
  | String "/" _ => s
  | _ => (sep ++ s)%string
  end = if starts_with "/" s then s else (sep ++ s)%string.
Proof.
  destruct s as [|c s]; [reflexivity|]. cbn [starts_with].
  destruct (Ascii.eqb_spec c "/") as [->|N]; [reflexivity|].
  destruct c as [[|] [|] [|] [|] [|] [|] [|] [|]]; try reflexivity. now elim N.
Qed.

(** X13: for a path that starts with [absPath], the path that the
    decisions log and that the path categories are matched against is the
    rest of the path, with the separator put in front when the rest does
    not start with it. *)
Theorem relative_of_path_below_root (p : FsParser) (rest : string) :
  relative p (absPath p ++ rest) = if starts_with "/" rest then rest else sep ++ rest.
Proof.
  unfold relative. rewrite replace_first_prefix. apply lead_separator.
Qed.

(** X14: a File decision leaves the collection and the records already
    in the log as they were, and appends the record
    [Processing file: <rel>] and then the record of the rule that decided,
    with the text that the rule matched ([File_reason]); no such record is
    written exactly when [onlyFiles] is present and does not match; and
    the decision is to process the file exactly when that record tells so.
    A Directory decision appends [Processing directory: <rel>] and then,
    always, the record of the rule that decided ([Directory_reason]), and
    the decision is to descend exactly when that record tells so. *)
Theorem decisions_append_to_the_log (p : FsParser) (filePath entry : string) (st : State) :
  let why := File_reason p (basename filePath) (extname filePath) in
  let why_dir := Directory_reason p (relative p filePath) entry in
  (snd (doWeProcessFile p filePath st) =
     mkState (log st ++ mkLog fileTag ("Processing file: " ++ relative p filePath) :: why)
             (results st) /\
   (why = [] <->
    present p onlyFiles = true /\ matches p onlyFiles (basename filePath) = false) /\
   fst (doWeProcessFile p filePath st) = existsb tells_allowed why)
  /\
  (snd (doWeProcessDir p filePath entry st) =
     mkState (log st ++ [mkLog dirTag ("Processing directory: " ++ relative p filePath);
                         why_dir])
             (results st) /\
   fst (doWeProcessDir p filePath entry st) = tells_allowed why_dir).
Proof.
  cbv zeta. split.
  - unfold doWeProcessFile, File_reason, present, matches, consult, _logMsg.
    cbn [log results]. rewrite !default_test.
    destruct (regex p onlyFiles) as [re|].
    + destruct (exec re (basename filePath)); cbn [fst snd log results].
      * rewrite <- app_assoc. split; [reflexivity|].
        split; [split; [discriminate | intros [_ K]; discriminate K] | reflexivity].
      * split; [reflexivity|]. split; [now split | reflexivity].
    + repeat match goal with
             | |- context [match ?x with Some _ => _ | None => _ end] => destruct x
             end;
        try destruct (strict_eq_true _);
        cbn [fst snd log results]; rewrite <- app_assoc;
        (split; [reflexivity|];
         split; [split; [discriminate | intros [K _]; discriminate K] | reflexivity]).
  - unfold doWeProcessDir, Directory_reason, _logMsg. cbn [log results].
    rewrite !default_test.
    repeat match goal with
           | |- context [consult p ?i ?x] => destruct (consult p i x)
           end;
      try destruct (strict_eq_true _);
      cbn [fst snd log results]; rewrite <- app_assoc; split; reflexivity.
Qed.

(** ** What a traversal adds does not depend on what was there *)

Lemma extend_initial_r (st : State) : extend st initial = st.
Proof. destruct st as [l r]. unfold extend. cbn. now rewrite !app_nil_r. Qed.

Lemma extend_initial_l (s : State) : extend initial s = s.
Proof. now destruct s. Qed.

Lemma extend_assoc (a b c : State) : extend (extend a b) c = extend a (extend b c).
Proof. unfold extend. cbn [log results]. now rewrite !app_assoc. Qed.

Lemma doWeProcessFile_extend (p : FsParser) (filePath : string) (st : State) :
  snd (doWeProcessFile p filePath st) = extend st (snd (doWeProcessFile p filePath initial)).
Proof.
  rewrite doWeProcessFile_frame. cbn [snd]. unfold extend.
  rewrite results_of_file_decision. cbn [results initial]. now rewrite app_nil_r.
Qed.

Lemma doWeProcessDir_extend (p : FsParser) (filePath entry : string) (st : State) :
  snd (doWeProcessDir p filePath entry st) =
  extend st (snd (doWeProcessDir p filePath entry initial)).
Proof.
  rewrite doWeProcessDir_frame. cbn [snd]. unfold extend.
  rewrite results_of_dir_decision. cbn [results initial]. now rewrite app_nil_r.
Qed.

Lemma push_result_extend (filePath : string) (st s : State) :
  push_result filePath (extend st s) = extend st (push_result filePath s).
Proof. unfold push_result, extend. cbn [log results]. now rewrite app_assoc. Qed.

Lemma visit_framed (p : FsParser) (recurse : string -> State -> State * promise)
    (dir entry : string) (child : node) :
  (forall filePath, framed (recurse filePath)) ->
  framed (visit p recurse dir entry child).
Proof.
  intros R st. rewrite !visit_eq.
  destruct (statSync child) as [[| |]|e]; cbn zeta; cbn [fst snd];
    try (now rewrite extend_initial_r).
  - rewrite (doWeProcessFile_extend p _ st).
    destruct (file_passes p (joined dir entry)); cbn [fst snd]; [|reflexivity].
    now rewrite push_result_extend.
  - rewrite (doWeProcessDir_extend p _ _ st).
    destruct (dir_passes p (joined dir entry) entry); cbn [fst snd]; [|reflexivity].
    rewrite (R (joined dir entry) (extend st _)).
    rewrite (R (joined dir entry) (snd (doWeProcessDir p (joined dir entry) entry initial))).
    cbn [fst]. now rewrite extend_assoc.
Qed.

Lemma map_entries_framed (p : FsParser) (dir : string) (es : list (string * node)) :
  Forall (fun e => forall d, framed (_parseDir p d (snd e))) es ->
  framed (map_entries p dir es).
Proof.
  induction 1 as [|[entry child] es H _ IH]; intros st.
  - cbn. now rewrite extend_initial_r.
  - cbn [snd] in H. rewrite !map_entries_cons.
    pose proof (@visit_framed p (fun filePath s => _parseDir p filePath child s)
                  dir entry child (fun filePath => H filePath)) as V.
    rewrite (V st).
    destruct (visit p (fun filePath s => _parseDir p filePath child s) dir entry child initial)
      as [v pr]. cbn [fst snd].
    rewrite (IH (extend st v)), (IH v).
    destruct (map_entries p dir es initial) as [m prs]. cbn [fst snd].
    now rewrite extend_assoc.
Qed.

Lemma _parseDir_framed (p : FsParser) (n : node) : forall dir, framed (_parseDir p dir n).
Proof.
  induction n as [| | | |es IH] using node_nested_ind; intros dir st;
    try (cbn; now rewrite extend_initial_r).
  rewrite !_parseDir_Dir. rewrite (map_entries_framed p dir IH st).
  now destruct (map_entries p dir es initial).
Qed.

Lemma parse_framed (p : FsParser) (root : node) (st : State) :
  parse p root st =
  (mkState (log st ++ log (fst (parse p root initial))) (results (fst (parse p root initial))),
   snd (parse p root initial)).
Proof.
  unfold parse. cbn [log initial].
  rewrite (_parseDir_framed p root (startPath p) (mkState (log st) [])).
  change (mkState [] []) with initial.
  destruct (_parseDir p (startPath p) root initial) as [s pr]. cbn [fst snd].
  unfold extend. cbn [log results app].
  destruct pr; reflexivity.
Qed.

(** X15: what [parse] returns does not depend on the state it starts
    from, be it the collection or the log of an earlier run: on the same
    tree a second call returns what the first call returned. *)
Theorem parse_is_idempotent (p : FsParser) (root : node) (st : State) :
  snd (parse p root (fst (parse p root st))) = snd (parse p root st) /\
  results (fst (parse p root (fst (parse p root st)))) = results (fst (parse p root st)).
Proof.
  rewrite (parse_framed p root (fst (parse p root st))), (parse_framed p root st).
  split; reflexivity.
Qed.

(** X16: [parse] resets the collection and not the log: the records of an
    earlier run stay, a run appends its own, and a second run on the same
    tree appends the same records once more. *)
Theorem parse_keeps_the_log (p : FsParser) (root : node) (st : State) :
  log (fst (parse p root st)) = (log st ++ log (fst (parse p root initial)))%list /\
  log (fst (parse p root (fst (parse p root st)))) =
  (log st ++ log (fst (parse p root initial)) ++ log (fst (parse p root initial)))%list.
Proof.
  rewrite (parse_framed p root (fst (parse p root st))), (parse_framed p root st).
  cbn [fst log]. split; [reflexivity | now rewrite app_assoc].
Qed.

Lemma reachable_passes (p : FsParser) (dir : string) (es : list (string * node)) (f : string) :
  reachable p dir es f -> file_passes p f = true.
Proof. induction 1; assumption. Qed.

Lemma collected_pass (p : FsParser) (root : node) (st : State) (f : string) :
  In f (results (fst (parse p root st))) -> file_passes p f = true.
Proof.
  unfold parse.
  destruct (_parseDir_results p root (startPath p) (mkState (log st) [])) as (l & E & C).
  destruct (_parseDir p (startPath p) root (mkState (log st) [])) as [st' pr].
  cbn [fst results app] in E.
  assert (K : results (fst (match pr with
                            | Fulfilled => (st', Ok (results st'))
                            | Rejected e => (st', Throw e)
                            end)) = l) by now destruct pr.
  rewrite K. intros I. apply C in I. destruct root; try contradiction.
  now apply reachable_passes in I.
Qed.

(** X17: on every tree, readable or not, and whether [parse] returns or
    rejects, the collection holds only paths that the File decision
    allows. *)
Theorem collection_holds_allowed_files (p : FsParser) (root : node) (st : State) (f : string) :
  In f (results (fst (parse p root st))) ->
  fst (doWeProcessFile p f initial) = true.
Proof. apply collected_pass. Qed.

Lemma collection_holds_allowed_files_witness :
  fst (doWeProcessFile (built scenario_opts) "/root/sub/b.md" initial) = true.
Proof.
  apply (@collection_holds_allowed_files (built scenario_opts) scenario_tree initial
           "/root/sub/b.md").
  cbn. right. left. reflexivity.
Defined.

(** X18: with [ignoreFilesByDefault] the boolean [true] and neither
    [onlyFiles] nor [allowFiles] compiled, no file is ever accepted: the
    collection of [parse] is empty on every tree. *)
Theorem deny_by_default_accepts_nothing (p : FsParser) (root : node) (st : State) :
  ignoreFilesByDefault (opts p) = JBool true ->
  regex p onlyFiles = None ->
  regex p allowFiles = None ->
  results (fst (parse p root st)) = [].
Proof.
  intros D O A.
  destruct (results (fst (parse p root st))) as [|f l] eqn:E; [reflexivity|].
  assert (I : In f (results (fst (parse p root st)))) by (rewrite E; now left).
  apply collected_pass in I. unfold file_passes in I.
  rewrite doWeProcessFile_decision in I. unfold File_decision, present, matches in I.
  rewrite O, D in I. unfold consult at 2 in I. rewrite A in I.
  destruct (consult p ignoreFilesFirst (basename f)); [discriminate I|].
  destruct (consult p ignoreFiles (basename f)); [discriminate I|].
  destruct (consult p ignoreExts (extname f)); discriminate I.
Qed.

Lemma deny_by_default_accepts_nothing_witness :
  results (fst (parse (built (mkOpts (fun _ => JUndefined) (JBool true) JUndefined))
                  scenario_tree initial)) = [].
Proof.
  apply deny_by_default_accepts_nothing; reflexivity.
Defined.

(** ** [NunjucksShortcode.run] *)

Lemma safe_of_context_returns (M : Messages) (context : value) :
  is_context context = true ->
  exists s, context = ContextObj s /\ safe_of_context M context = Returns s.
Proof. destruct context; try discriminate. intros _. now eexists. Qed.

Lemma safe_of_context_throws (M : Messages) (context : value) :
  is_context context = false ->
  exists msg, safe_of_context M context = Throws (EngineTypeError msg).
Proof.
  destruct context as [v| | |]; try discriminate; intros _; try (eexists; reflexivity).
  destruct v; eexists; reflexivity.
Qed.

Lemma run_remaining (M : Messages) (m : Methods) (self : NunjucksShortcode)
    (args : list value) :
  exists resolve body,
    run M m self args =
    match safe_of_context M (hd (Data JUndefined) (remaining self args)) with
    | Throws e => (self, [], Sync (Throws e))
    | Returns s =>
        let self' := mkShortcode (tags self) (config self) (paired self) (isasync self) s in
        if isasync self then
          if paired self then
            match call_body M body with
            | (Throws e, calls) => (self', calls, Sync (Throws e))
            | (Returns b, calls) =>
                let '(r, calls') :=
                  then_catch (renderAsyncPaired m (hd (Data JUndefined) (remaining self args))
                                b (tl (remaining self args)))
                    (then_function M None resolve) (catch_function M None resolve) in
                (self', (calls ++ calls')%list, Async r)
            end
          else
            let '(r, calls) :=
              then_catch (renderAsync m (hd (Data JUndefined) (remaining self args))
                            (tl (remaining self args)))
                (then_function M None resolve) (catch_function M None resolve) in
            (self', calls, Async r)
        else
          let '(ret, calls) :=
            if paired self then
              match call_body M body with
              | (Throws e, calls) => (Throws e, calls)
              | (Returns b, calls) =>
                  (renderPaired m (hd (Data JUndefined) (remaining self args)) b
                     (tl (remaining self args)), calls)
              end
            else (render m (hd (Data JUndefined) (remaining self args))
                    (tl (remaining self args)), []) in
          match (match ret with
                 | Returns v => call_safe M self' v
                 | Throws e => Throws e
                 end) with
          | Returns v => (self', calls, Sync (Returns v))
          | Throws e => (self', calls, Sync (Throws (wrapped M self' e)))
          end
    end.
Proof.
  unfold run, remaining.
  destruct (isasync self), (paired self); cbn [fst];
    repeat (match goal with
            | |- context [pop_value ?a] => destruct (pop_value a) as [? ?]
            end; cbn [fst]);
    unshelve (eexists _, _; reflexivity); exact (Data JUndefined).
Qed.

(** X19: when what is left for the context, after the callback and the
    body are popped, is not an object with [env.filters] (no argument at
    all, for one), [run] throws the TypeError of the engine as it is, not
    wrapped, before it has called a render method, the body or the
    callback, and [this.safe] is not set. *)
Theorem run_without_context (M : Messages) (self : NunjucksShortcode) (args : list value) :
  is_context (hd (Data JUndefined) (remaining self args)) = false ->
  exists msg, forall m,
    run M m self args = (self, [], Sync (Throws (EngineTypeError msg))).
Proof.
  intros C. destruct (safe_of_context_throws M _ C) as [msg E].
  exists msg. intros m. destruct (run_remaining M m self args) as (resolve & body & R).
  now rewrite R, E.
Qed.

Lemma run_without_context_witness :
  exists msg, forall m,
    run some_messages m (new_NunjucksShortcode (JStr "note") JObj true true) [] =
    (new_NunjucksShortcode (JStr "note") JObj true true, [],
     Sync (Throws (EngineTypeError msg))).
Proof.
  apply (@run_without_context some_messages
           (new_NunjucksShortcode (JStr "note") JObj true true) []).
  reflexivity.
Defined.

Lemma pop_value_last (a : list value) (b : value) : pop_value (a ++ [b]) = (a, b).
Proof. unfold pop_value. rewrite rev_app_distr. cbn. now rewrite rev_involutive. Qed.

(** X20: what [run] does for a tag that is not async, with a context in
    place.  The render method gets the context and the arguments after it
    (for a paired tag the last argument is the body, which is called
    first, and its value is handed over too); what it returns goes through
    the [safe] filter and is returned.  An error thrown on the way, by the
    body, the render method or the filter, or by the call of a [safe] that
    is no function, is thrown again as the NunjucksShortcodeError with the
    text [Error with Nunjucks shortcode '<first tag>': <message of that
    error>]; when [null] or [undefined] was thrown, the read of its
    message fails in the catch block and the TypeError of the engine comes
    out instead. *)
Theorem sync_run_wraps_errors (M : Messages) (m : Methods) (self : NunjucksShortcode)
    (s : option (jsval -> outcome jsval)) (a : list value) (body : value) :
  isasync self = false ->
  let filtered (r : outcome jsval) : outcome jsval :=
    match r with
    | Returns v =>
        match s with
        | Some f => f v
        | None => Throws (EngineTypeError (not_a_function M "this.safe"))
        end
    | Throws e => Throws e
    end in
  let rethrown (r : outcome jsval) : run_result :=
    match r with
    | Returns v => Sync (Returns v)
    | Throws e =>
        match message_of M e with
        | Returns message =>
            Sync (Throws (ShortcodeError
                            ("Error with Nunjucks shortcode '"
                             ++ ToString (nth 0 (tags self) JUndefined)
                             ++ "': " ++ message)))
        | Throws failure => Sync (Throws failure)
        end
    end in
  (paired self = false ->
   snd (run M m self (ContextObj s :: a)) =
   rethrown (filtered (render m (ContextObj s) a)))
  /\
  (paired self = true ->
   snd (run M m self (ContextObj s :: a ++ [body])) =
   rethrown (filtered (match fst (call_body M body) with
                       | Returns b => renderPaired m (ContextObj s) b a
                       | Throws e => Throws e
                       end))).
Proof.
  intros A. cbv zeta. split; intros P; unfold run; rewrite A, P.
  - cbn [hd tl safe_of_context isasync paired].
    unfold call_safe, wrapped, tag0. cbn [safe tags].
    destruct (render m (ContextObj s) a) as [v|e].
    + destruct s as [f|]; [destruct (f v) as [x|e]|]; cbn [snd]; try reflexivity;
        now destruct (message_of M _).
    + cbn [snd]. now destruct (message_of M e).
  - change (ContextObj s :: a ++ [body])%list with ((ContextObj s :: a) ++ [body])%list.
    rewrite pop_value_last.
    cbn [hd tl safe_of_context isasync paired].
    unfold call_safe, wrapped, tag0. cbn [safe tags].
    destruct (call_body M body) as [[b|e] calls]; cbn [fst].
    + destruct (renderPaired m (ContextObj s) b a) as [v|e].
      * destruct s as [f|]; [destruct (f v) as [x|e]|]; cbn [snd]; try reflexivity;
          now destruct (message_of M _).
      * cbn [snd]. now destruct (message_of M e).
    + cbn [snd]. now destruct (message_of M e).
Qed.

Lemma sync_run_wraps_errors_witness :
  snd (run some_messages
         (mkMethods (fun _ _ => Throws (UserError "no such note")) (renderPaired base_methods)
            (renderAsync base_methods) (renderAsyncPaired base_methods))
         (new_NunjucksShortcode (JStr "note") JObj false false)
         [ContextObj None; Data (JStr "x")]) =
  Sync (Throws (ShortcodeError "Error with Nunjucks shortcode 'note': no such note")).
Proof.
  destruct (@sync_run_wraps_errors some_messages
              (mkMethods (fun _ _ => Throws (UserError "no such note"))
                 (renderPaired base_methods)
                 (renderAsync base_methods) (renderAsyncPaired base_methods))
              (new_NunjucksShortcode (JStr "note") JObj false false)
              None [Data (JStr "x")] (Data JUndefined) eq_refl) as [U _].
  exact (U eq_refl).
Defined.

(** A render method that throws [null]. *)
Example sync_run_thrown_null :
  snd (run some_messages
         (mkMethods (fun _ _ => Throws (ThrownValue JNull)) (renderPaired base_methods)
            (renderAsync base_methods) (renderAsyncPaired base_methods))
         (new_NunjucksShortcode (JStr "note") JObj false false)
         [ContextObj None]) =
  Sync (Throws (EngineTypeError "Cannot read properties of null (reading 'message')")).
Proof. reflexivity. Qed.

(** X21: a tag of the class itself, neither paired nor async, fails on
    every use with a context: [run] throws the NunjucksShortcodeError that
    wraps "You must override the 'render' method.", whatever the
    arguments of the tag are and whether the context has a [safe] filter
    or not. *)
Theorem base_class_run_always_throws (M : Messages) (self : NunjucksShortcode)
    (s : option (jsval -> outcome jsval)) (a : list value) :
  isasync self = false ->
  paired self = false ->
  run M base_methods self (ContextObj s :: a) =
  (mkShortcode (tags self) (config self) false false s, [],
   Sync (Throws (ShortcodeError
                   ("Error with Nunjucks shortcode '" ++ tag0 self ++ "': "
                    ++ ga_message M "You must override the 'render' method.")))).
Proof.
  intros A P. unfold run. rewrite A, P. reflexivity.
Qed.

Lemma base_class_run_always_throws_witness :
  run some_messages base_methods (new_NunjucksShortcode (JStr "note") JObj false false)
    [ContextObj None] =
  (mkShortcode [JStr "note"] JObj false false None, [],
   Sync (Throws (ShortcodeError
                   "Error with Nunjucks shortcode 'note': You must override the 'render' method."))).
Proof.
  apply (@base_class_run_always_throws some_messages
           (new_NunjucksShortcode (JStr "note") JObj false false) None []); reflexivity.
Defined.

Lemma then_catch_unbound (M : Messages) (resolve : value) (p : outcome jsval) :
  exists msg,
    then_catch p (then_function M None resolve) (catch_function M None resolve) =
    (Throws (EngineTypeError msg), []).
Proof. destruct p; eexists; reflexivity. Qed.

(** X22: an async tag never calls its callback.  The functions given to
    [then] and [catch] are not arrow functions and are called with [this]
    undefined, so the first throws on [this.safe] and the second on
    [this.tags], before [resolve] is reached: whether the render promise
    is fulfilled or rejected, [run] makes no call [resolve(null, ...)] and
    no call [resolve(error, null)], and the chain ends rejected with a
    TypeError of the engine. *)
Theorem async_run_never_calls_back (M : Messages) (m : Methods) (self : NunjucksShortcode)
    (args : list value) :
  isasync self = true ->
  (forall c, In c (snd (fst (run M m self args))) -> c = Bare) /\
  match snd (run M m self args) with
  | Sync r => exists e, r = Throws e
  | Async settled => exists msg, settled = Throws (EngineTypeError msg)
  end.
Proof.
  intros A. destruct (run_remaining M m self args) as (resolve & body & R).
  rewrite R, A. clear R.
  destruct (safe_of_context M (hd (Data JUndefined) (remaining self args))) as [s|e];
    cbn [fst snd]; [|split; [intros c [] | now exists e]].
  cbv zeta. destruct (paired self).
  - destruct body as [v|sf|[b|e]|]; cbn [call_body];
      try (split; [intros c [] | now eexists]).
    + destruct (then_catch_unbound M resolve
                  (renderAsyncPaired m (hd (Data JUndefined) (remaining self args)) b
                     (tl (remaining self args)))) as [msg ->].
      cbn [fst snd app]. split; [intros c [] | now exists msg].
    + destruct (then_catch_unbound M resolve
                  (renderAsyncPaired m (hd (Data JUndefined) (remaining self args)) JUndefined
                     (tl (remaining self args)))) as [msg ->].
      cbn [fst snd app]. split; [|now exists msg].
      intros c [<-|[]]. reflexivity.
  - destruct (then_catch_unbound M resolve
                (renderAsync m (hd (Data JUndefined) (remaining self args))
                   (tl (remaining self args)))) as [msg ->].
    cbn [fst snd]. split; [intros c [] | now exists msg].
Qed.

(** A subclass whose async render is fulfilled with a text. *)
Example async_run_fulfilled_render :
  run some_messages
    (mkMethods (render base_methods) (renderPaired base_methods)
       (fun _ _ => Returns (JStr "<b>hi</b>")) (renderAsyncPaired base_methods))
    (new_NunjucksShortcode (JStr "note") JObj false true)
    [ContextObj (Some (fun v => Returns v)); Data (JStr "x"); CallbackFn] =
  (mkShortcode [JStr "note"] JObj false true (Some (fun v => Returns v)), [],
   Async (Throws (EngineTypeError "Cannot read properties of undefined (reading 'tags')"))).
Proof. reflexivity. Qed.

Lemma async_run_never_calls_back_witness :
  (forall c,
     In c (snd (fst (run some_messages base_methods
                       (new_NunjucksShortcode (JStr "note") JObj false true)
                       [ContextObj None; CallbackFn]))) -> c = Bare) /\
  match snd (run some_messages base_methods
               (new_NunjucksShortcode (JStr "note") JObj false true)
               [ContextObj None; CallbackFn]) with
  | Sync r => exists e, r = Throws e
  | Async settled => exists msg, settled = Throws (EngineTypeError msg)
  end.
Proof.
  apply (@async_run_never_calls_back some_messages base_methods
           (new_NunjucksShortcode (JStr "note") JObj false true)
           [ContextObj None; CallbackFn]).
  reflexivity.
Defined.
